(** * The xv6-style block buffer cache of [kernel/bio.c]

    A shallow embedding of [binit], [bget], [bread], [bwrite], [brelse],
    [bpin] and [bunpin], with the doubly linked recency list kept as the
    code keeps it: [prev]/[next] pointer fields inside every [struct buf],
    updated one assignment at a time. *)

From Stdlib Require Import ZArith String.
From stdpp Require Import base tactics option list relations.

Open Scope Z_scope.

(** ** Memory model *)

(** A [struct buf *].  The only objects of that type are the [NBUF] elements
    of [bcache.buf] and the sentinel [bcache.head]; a zero-initialised link
    is the null pointer. *)
Inductive ptr : Type :=
  | Null
  | Head
  | Slot (i : nat).

#[global] Instance ptr_eq_dec : EqDecision ptr.
Proof. solve_decision. Defined.

#[global] Instance Slot_inj : Inj (=) (=) Slot.
Proof. intros i j; congruence. Qed.

(** Process identifiers ([myproc()->pid], an [int]); the calling process is
    an explicit argument of the operations that consult it. *)
Definition pid := Z.

(** The payload [uchar data[BSIZE]]. *)
Definition block := list Z.

(** [struct buf].  [buf.h] is not part of the sources: the fields are the
    ones [bio.c] uses.  [refcnt] is kept as a mathematical integer, so a
    decrement below zero shows as a negative value; the sleep-lock is the
    pid of its holder, if any. *)
Record buf : Type := mkbuf {
  valid : bool;
  dev : Z;
  blockno : Z;
  lock : option pid;
  refcnt : Z;
  prev : ptr;
  next : ptr;
  data : block
}.

Definition set_valid (v : bool) (x : buf) : buf :=
  mkbuf v (dev x) (blockno x) (lock x) (refcnt x) (prev x) (next x) (data x).
Definition set_dev (d : Z) (x : buf) : buf :=
  mkbuf (valid x) d (blockno x) (lock x) (refcnt x) (prev x) (next x) (data x).
Definition set_blockno (n : Z) (x : buf) : buf :=
  mkbuf (valid x) (dev x) n (lock x) (refcnt x) (prev x) (next x) (data x).
Definition set_lock (l : option pid) (x : buf) : buf :=
  mkbuf (valid x) (dev x) (blockno x) l (refcnt x) (prev x) (next x) (data x).
Definition set_refcnt (r : Z) (x : buf) : buf :=
  mkbuf (valid x) (dev x) (blockno x) (lock x) r (prev x) (next x) (data x).
Definition set_prev (p : ptr) (x : buf) : buf :=
  mkbuf (valid x) (dev x) (blockno x) (lock x) (refcnt x) p (next x) (data x).
Definition set_next (p : ptr) (x : buf) : buf :=
  mkbuf (valid x) (dev x) (blockno x) (lock x) (refcnt x) (prev x) p (data x).
Definition set_data (d : block) (x : buf) : buf :=
  mkbuf (valid x) (dev x) (blockno x) (lock x) (refcnt x) (prev x) (next x) d.

(** A [struct buf] of static storage before any assignment: all zero. *)
Definition buf0 : buf := mkbuf false 0 0 None 0 Null Null [].

(** The global [bcache]: the array [buf[NBUF]] and the sentinel [head].
    The spin-lock [bcache.lock] only delimits the critical sections; calls
    are run one after the other here, so it carries no state. *)
Record bcache : Type := mkcache {
  bc_buf : list buf;
  bc_head : buf
}.

(** [*p] as an rvalue.  Reading through a null or out-of-range pointer is
    undefined in C; here it yields the all-zero [buf0]. *)
Definition deref (c : bcache) (p : ptr) : buf :=
  match p with
  | Null => buf0
  | Head => bc_head c
  | Slot i => default buf0 (bc_buf c !! i)
  end.

(** [*p = x].  Writing through a null or out-of-range pointer is undefined
    in C; here it leaves the cache as it is. *)
Definition store (p : ptr) (x : buf) (c : bcache) : bcache :=
  match p with
  | Null => c
  | Head => mkcache (bc_buf c) x
  | Slot i => mkcache (<[i:=x]> (bc_buf c)) (bc_head c)
  end.

(** [p->field = ...]: one field assignment through a pointer. *)
Definition assign (p : ptr) (f : buf → buf) (c : bcache) : bcache :=
  store p (f (deref c p)) c.

(** ** The world: cache, disk and the trace of disk transfers *)

Inductive io_event : Type :=
  | DiskRead (d n : Z)
  | DiskWrite (d n : Z) (payload : block).

Record world : Type := mkworld {
  cache : bcache;
  disk : Z → Z → block;
  io : list io_event
}.

Definition with_cache (f : bcache → bcache) (w : world) : world :=
  mkworld (f (cache w)) (disk w) (io w).

(** How a call ends. *)
Inductive outcome (A : Type) : Type :=
  | Ret (a : A) (w : world)
  | Panic (msg : string) (w : world)
  | Sleeping (b : ptr) (w : world)
  | Looping (w : world).
Arguments Ret {A} a w.
Arguments Panic {A} msg w.
Arguments Sleeping {A} b w.
Arguments Looping {A} w.

Definition M (A : Type) : Type := world → outcome A.

Definition ret {A} (a : A) : M A := fun w => Ret a w.

Definition bind {A B} (m : M A) (k : A → M B) : M B :=
  fun w =>
    match m w with
    | Ret a w' => k a w'
    | Panic msg w' => Panic msg w'
    | Sleeping b w' => Sleeping b w'
    | Looping w' => Looping w'
    end.

Notation "'do' x <- m ; k" := (bind m (fun x => k))
  (at level 10, x name, m at level 100, k at level 200).
Notation "m ;; k" := (bind m (fun _ => k))
  (at level 100, k at level 200, right associativity).

Definition panic {A} (msg : string) : M A := fun w => Panic msg w.

(** Run a block of assignments on the cache. *)
Definition update (f : bcache → bcache) : M unit :=
  fun w => Ret tt (with_cache f w).

(** Read a field through a pointer. *)
Definition load {A} (p : ptr) (f : buf → A) : M A :=
  fun w => Ret (f (deref (cache w) p)) w.

(** ** External collaborators *)

(** Modelled from the spec: the sleep-lock primitives of [sleeplock.c]
    ([acquiresleep], [releasesleep], [holdingsleep]), which are not among
    the sources.  Acquiring blocks the caller while the lock is held;
    releasing frees it; [holdingsleep] tells whether the caller holds it. *)
Definition acquiresleep (p : pid) (b : ptr) : M unit :=
  fun w =>
    match lock (deref (cache w) b) with
    | None => Ret tt (with_cache (assign b (set_lock (Some p))) w)
    | Some _ => Sleeping b w
    end.

Definition releasesleep (b : ptr) : M unit :=
  update (assign b (set_lock None)).

Definition holdingsleep (p : pid) (b : ptr) : M bool :=
  load b (fun x => bool_decide (lock x = Some p)).

(** Modelled from the spec: the disk-transfer routine [virtio_disk_rw],
    which is not among the sources.  In read mode it fills the payload of
    the buffer from the block the buffer names, in write mode it flushes the
    payload to that block; every call is appended to the trace. *)
Definition virtio_disk_rw (b : ptr) (write : bool) : M unit :=
  fun w =>
    let x := deref (cache w) b in
    if write then
      Ret tt (mkworld (cache w)
                (fun d n => if (d =? dev x) && (n =? blockno x) then data x
                            else disk w d n)
                (io w ++ [DiskWrite (dev x) (blockno x) (data x)]))
    else
      Ret tt (mkworld (assign b (set_data (disk w (dev x) (blockno x))) (cache w))
                (disk w)
                (io w ++ [DiskRead (dev x) (blockno x)])).

(** ** [bio.c] *)

(** The cache as the loader leaves it: static storage, all zero. *)
Definition bcache0 (NBUF : nat) : bcache := mkcache (replicate NBUF buf0) buf0.

(** One turn of the loop of [binit], for [b = &bcache.buf[i]]. *)
Definition binit_body (i : nat) (c : bcache) : bcache :=
  let b := Slot i in
  let c := assign b (set_next (next (deref c Head))) c in
  let c := assign b (set_prev Head) c in
  let c := assign b (set_lock None) c in
  let c := assign (next (deref c Head)) (set_prev b) c in
  assign Head (set_next b) c.

Definition binit (NBUF : nat) (c : bcache) : bcache :=
  let c := assign Head (set_prev Head) c in
  let c := assign Head (set_next Head) c in
  foldl (fun c i => binit_body i c) c (seq 0 NBUF).

(** Result of one of the two scanning loops of [bget]. *)
Inductive scan : Type :=
  | Found (b : ptr)
  | NotFound
  | Unfinished.

(** [for(b = ...; b != &bcache.head; b = b->next)] looking for the block. *)
Fixpoint scan_cached (fuel : nat) (d n : Z) (c : bcache) (b : ptr) : scan :=
  match fuel with
  | O => Unfinished
  | S fuel' =>
      if decide (b = Head) then NotFound
      else if (dev (deref c b) =? d) && (blockno (deref c b) =? n) then Found b
      else scan_cached fuel' d n c (next (deref c b))
  end.

(** [for(b = ...; b != &bcache.head; b = b->prev)] looking for an unused
    buffer. *)
Fixpoint scan_unused (fuel : nat) (c : bcache) (b : ptr) : scan :=
  match fuel with
  | O => Unfinished
  | S fuel' =>
      if decide (b = Head) then NotFound
      else if refcnt (deref c b) =? 0 then Found b
      else scan_unused fuel' c (prev (deref c b))
  end.

Definition bget (fuel : nat) (p : pid) (d n : Z) : M ptr :=
  fun w =>
    (* acquire(&bcache.lock) *)
    match scan_cached fuel d n (cache w) (next (deref (cache w) Head)) with
    | Found b =>
        (update (assign b (fun x => set_refcnt (refcnt x + 1) x)) ;;
         (* release(&bcache.lock) *)
         acquiresleep p b ;;
         ret b) w
    | Unfinished => Looping w
    | NotFound =>
        match scan_unused fuel (cache w) (prev (deref (cache w) Head)) with
        | Found b =>
            (update (assign b (set_dev d)) ;;
             update (assign b (set_blockno n)) ;;
             update (assign b (set_valid false)) ;;
             update (assign b (set_refcnt 1)) ;;
             (* release(&bcache.lock) *)
             acquiresleep p b ;;
             ret b) w
        | Unfinished => Looping w
        | NotFound => Panic "bget:no buffers" w
        end
    end.

Definition bread (fuel : nat) (p : pid) (d n : Z) : M ptr :=
  do b <- bget fuel p d n;
  do v <- load b valid;
  if negb v then
    virtio_disk_rw b false ;;
    update (assign b (set_valid true)) ;;
    ret b
  else ret b.

Definition bwrite (p : pid) (b : ptr) : M unit :=
  do held <- holdingsleep p b;
  if negb held then panic "bwrite"
  else virtio_disk_rw b true.

Definition brelse (p : pid) (b : ptr) : M unit :=
  do held <- holdingsleep p b;
  if negb held then panic "brelse"
  else
    releasesleep b ;;
    (* acquire(&bcache.lock) *)
    update (assign b (fun x => set_refcnt (refcnt x - 1) x)) ;;
    do r <- load b refcnt;
    (if r =? 0 then
       update (fun c => assign (next (deref c b)) (set_prev (prev (deref c b))) c) ;;
       update (fun c => assign (prev (deref c b)) (set_next (next (deref c b))) c) ;;
       update (fun c => assign b (set_next (next (deref c Head))) c) ;;
       update (assign b (set_prev Head)) ;;
       update (fun c => assign (next (deref c Head)) (set_prev b) c) ;;
       update (assign Head (set_next b))
     else ret tt)
    (* release(&bcache.lock) *).

Definition bpin (b : ptr) : M unit :=
  (* acquire(&bcache.lock) *)
  update (assign b (fun x => set_refcnt (refcnt x + 1) x))
  (* release(&bcache.lock) *).

Definition bunpin (b : ptr) : M unit :=
  (* acquire(&bcache.lock) *)
  update (assign b (fun x => set_refcnt (refcnt x - 1) x))
  (* release(&bcache.lock) *).

(** The pointers that designate an object of the cache. *)
Definition in_range (c : bcache) (p : ptr) : Prop :=
  match p with
  | Null => False
  | Head => True
  | Slot i => (i < length (bc_buf c))%nat
  end.

#[global] Instance in_range_dec c p : Decision (in_range c p).
Proof. destruct p; simpl; apply _. Defined.

(** ** The recency list as two walks *)

(** The two link fields, and the assignment to each. *)
Inductive dir : Type := Fwd | Bwd.

Definition link (r : dir) (x : buf) : ptr :=
  match r with Fwd => next x | Bwd => prev x end.

Definition set_link (r : dir) (p : ptr) (x : buf) : buf :=
  match r with Fwd => set_next p x | Bwd => set_prev p x end.

Definition opp (r : dir) : dir := match r with Fwd => Bwd | Bwd => Fwd end.

(** [walk r c x l y]: starting at [x] and following the [r] links, one meets
    the slots [l], in this order, and then [y]. *)
Fixpoint walk (r : dir) (c : bcache) (x : ptr) (l : list nat) (y : ptr) : Prop :=
  match l with
  | [] => link r (deref c x) = y
  | i :: l' => link r (deref c x) = Slot i ∧ walk r c (Slot i) l' y
  end.

(** The first pointer of [l] followed by [y], and the last of [x] followed
    by [l]. *)
Definition firstp (l : list nat) (y : ptr) : ptr :=
  match l with [] => y | i :: _ => Slot i end.

Fixpoint lastp (x : ptr) (l : list nat) : ptr :=
  match l with [] => x | i :: l' => lastp (Slot i) l' end.

(** The two walks of [ring], without the conditions on [l]. *)
Definition walks (c : bcache) (l : list nat) : Prop :=
  walk Fwd c Head l Head ∧ walk Bwd c Head (reverse l) Head.

(** The recency list of a cache of [N] buffers is well formed, with the
    slots in the order [l] from most to least recently used: [l] lists each
    slot once, the [next] links lead from the sentinel through [l] back to
    the sentinel, and the [prev] links do so through [l] reversed. *)
Definition ring (N : nat) (c : bcache) (l : list nat) : Prop :=
  length (bc_buf c) = N ∧ l ≡ₚ seq 0 N ∧ walks c l.

(** The link fields of the whole cache, sentinel first. *)
Definition links (c : bcache) : list (ptr * ptr) :=
  (fun x => (prev x, next x)) <$> (bc_head c :: bc_buf c).

(** What a slot caches: device and block number. *)
Definition ident (c : bcache) (i : nat) : Z * Z :=
  (dev (deref c (Slot i)), blockno (deref c (Slot i))).

(** The tests of the two loops of [bget], on slot numbers. *)
Definition cached (d n : Z) (c : bcache) (i : nat) : bool :=
  (dev (deref c (Slot i)) =? d) && (blockno (deref c (Slot i)) =? n).

Definition unused (c : bcache) (i : nat) : bool :=
  refcnt (deref c (Slot i)) =? 0.

(** The two ways [bget] leaves its critical section. *)
Definition hit (b : ptr) (c : bcache) : bcache :=
  assign b (fun x => set_refcnt (refcnt x + 1) x) c.

Definition rebind (d n : Z) (b : ptr) (c : bcache) : bcache :=
  assign b (set_refcnt 1)
    (assign b (set_valid false)
       (assign b (set_blockno n)
          (assign b (set_dev d) c))).

(** The caller then takes the sleep-lock of the chosen buffer. *)
Definition locked_return (p : pid) (b : ptr) : M ptr :=
  acquiresleep p b ;; ret b.

(** The six assignments of [brelse] that move [b] to the front. *)
Definition unlink (b : ptr) (c : bcache) : bcache :=
  let c := assign (next (deref c b)) (set_prev (prev (deref c b))) c in
  assign (prev (deref c b)) (set_next (next (deref c b))) c.

(** [b->next = bcache.head.next; b->prev = &bcache.head;] *)
Definition stage_front (b : ptr) (c : bcache) : bcache :=
  let c := assign b (set_next (next (deref c Head))) c in
  assign b (set_prev Head) c.

(** [bcache.head.next->prev = b; bcache.head.next = b;] *)
Definition splice_front (b : ptr) (c : bcache) : bcache :=
  let c := assign (next (deref c Head)) (set_prev b) c in
  assign Head (set_next b) c.

Definition push_front (b : ptr) (c : bcache) : bcache :=
  splice_front b (stage_front b c).


(** Slot [i] is out of the walks over [l] and already points at the
    sentinel and at the current front. *)
Definition staged (c : bcache) (l : list nat) (i : nat) : Prop :=
  walks c l ∧
  next (deref c (Slot i)) = next (deref c Head) ∧
  prev (deref c (Slot i)) = Head.

(** The world in which an outcome leaves the system. *)
Definition final {A} (o : outcome A) : world :=
  match o with
  | Ret _ w | Panic _ w | Sleeping _ w | Looping w => w
  end.

(** The cache after the critical section of [brelse] on a held buffer. *)
Definition released (b : ptr) (c : bcache) : bcache :=
  let c := assign b (set_lock None) c in
  let c := assign b (fun x => set_refcnt (refcnt x - 1) x) c in
  if refcnt (deref c b) =? 0 then push_front b (unlink b c) else c.

(** [released] before its list surgery. *)
Definition uncounted (b : ptr) (c : bcache) : bcache :=
  assign b (fun x => set_refcnt (refcnt x - 1) x) (assign b (set_lock None) c).

(** The world after the disk read of [bread] into [b]. *)
Definition filled (b : ptr) (w : world) : world :=
  let x := deref (cache w) b in
  mkworld
    (assign b (set_valid true) (assign b (set_data (disk w (dev x) (blockno x))) (cache w)))
    (disk w)
    (io w ++ [DiskRead (dev x) (blockno x)]).

(** ** Sequences of calls *)

Inductive op : Type :=
  | Acquire (p : pid) (d n : Z)
  | Read (p : pid) (d n : Z)
  | Write (p : pid) (b : ptr)
  | Release (p : pid) (b : ptr)
  | Pin (b : ptr)
  | Unpin (b : ptr).

Definition exec (fuel : nat) (o : op) : M unit :=
  match o with
  | Acquire p d n => bget fuel p d n ;; ret tt
  | Read p d n => bread fuel p d n ;; ret tt
  | Write p b => bwrite p b
  | Release p b => brelse p b
  | Pin b => bpin b
  | Unpin b => bunpin b
  end.

(** Callers pass pointers to elements of [bcache.buf]. *)
Definition handle (N : nat) (b : ptr) : Prop :=
  match b with Slot i => (i < N)%nat | _ => False end.

Definition op_ok (N : nat) (o : op) : Prop :=
  match o with
  | Write _ b | Release _ b | Pin b | Unpin b => handle N b
  | Acquire _ _ _ | Read _ _ _ => True
  end.

(** One call that returns, under a side condition [G] on the call.  A cache
    of [N] buffers is scanned with fuel [S N]. *)
Definition step (G : op → world → world → Prop) (N : nat) (w w' : world) : Prop :=
  ∃ o, op_ok N o ∧ G o w w' ∧ exec (S N) o w = Ret tt w'.

(** The system after [binit], with any disk. *)
Definition boot (N : nat) (dsk : Z → Z → block) : world :=
  mkworld (binit N (bcache0 N)) dsk [].

Inductive reachable_by (G : op → world → world → Prop) (N : nat) : world → Prop :=
  | reach_boot dsk : reachable_by G N (boot N dsk)
  | reach_step w w' : reachable_by G N w → step G N w w' → reachable_by G N w'.

Definition any_call : op → world → world → Prop := fun _ _ _ => True.

(** The worlds that calls leave behind however they end: a call that went
    to sleep in [acquiresleep] has already made its assignments, a call
    that panicked has made those before the panic. *)
Inductive reachable_all (G : op → world → world → Prop) (N : nat) : world → Prop :=
  | reach_all_boot dsk : reachable_all G N (boot N dsk)
  | reach_all_step w o :
      reachable_all G N w → op_ok N o →
      G o w (final (exec (S N) o w)) →
      reachable_all G N (final (exec (S N) o w)).

Definition reachable : nat → world → Prop := reachable_by any_call.

(** [brelse] and [bunpin] called only on buffers with a positive count. *)
Definition counted : op → world → world → Prop :=
  fun o w _ =>
    match o with
    | Release _ b | Unpin b => 0 < refcnt (deref (cache w) b)
    | _ => True
    end.

(** Calls after which buffer [b] still has a positive count. *)
Definition keeps (b : ptr) : op → world → world → Prop :=
  fun _ _ w' => 0 < refcnt (deref (cache w') b).

(** [i] comes before [j] in the recency order [l]. *)
Definition before (l : list nat) (i j : nat) : Prop := [i; j] `sublist_of` l.

(** A buffer that the cache has never handed out is as [binit] left the
    static storage: not valid, unlocked, its payload untouched. *)
Definition pristine (c : bcache) (j : nat) : Prop :=
  valid (deref c (Slot j)) = false ∧
  lock (deref c (Slot j)) = None ∧
  data (deref c (Slot j)) = [].

(** Two slots may carry the same identity only if it is the all-zero one
    of static storage, and then the later one in recency order has never
    been handed out. *)
Definition fresh_dups (c : bcache) (l : list nat) : Prop :=
  ∀ i j, before l i j → ident c i = ident c j →
         ident c j = (0, 0) ∧ pristine c j.

Definition inv (N : nat) (c : bcache) (l : list nat) : Prop :=
  ring N c l ∧ fresh_dups c l.

(** A disk of empty blocks, for examples. *)
Definition blank : Z → Z → block := fun _ _ => [].

(** Buffer [i] is counted and is the first in recency order to cache block
    [(d, n)]: what makes a further [bget] find it again. *)
Definition pinned_first (N : nat) (d n : Z) (i : nat) (w : world) : Prop :=
  ∃ l, inv N (cache w) l ∧
       find (cached d n (cache w)) l = Some i ∧
       0 < refcnt (deref (cache w) (Slot i)).

(** The elementary changes that a call makes to the cache [c] and to the
    recency order [l]; the label names the buffer whose count was lowered,
    if any.  A [bget] that goes to sleep has made the change of [ch_pin]
    (on a hit) or of [ch_rebind_wait]. *)
Inductive change (l : list nat) (c : bcache) : option nat → list nat → bcache → Prop :=
  | ch_hit i p d n :
      find (cached d n c) l = Some i →
      lock (deref c (Slot i)) = None →
      change l c None l (assign (Slot i) (set_lock (Some p)) (hit (Slot i) c))
  | ch_rebind i p d n :
      find (cached d n c) l = None →
      find (unused c) (reverse l) = Some i →
      lock (deref c (Slot i)) = None →
      change l c None l (assign (Slot i) (set_lock (Some p)) (rebind d n (Slot i) c))
  | ch_rebind_wait i d n :
      find (cached d n c) l = None →
      find (unused c) (reverse l) = Some i →
      change l c None l (rebind d n (Slot i) c)
  | ch_fill i blk d n :
      find (cached d n c) l = Some i →
      change l c None l
        (assign (Slot i) (set_valid true) (assign (Slot i) (set_data blk) c))
  | ch_release l1 i l2 p :
      l = l1 ++ i :: l2 →
      lock (deref c (Slot i)) = Some p →
      change l c (Some i)
        (if refcnt (deref c (Slot i)) - 1 =? 0 then i :: l1 ++ l2 else l)
        (released (Slot i) c)
  | ch_pin i :
      i ∈ l → change l c None l (hit (Slot i) c)
  | ch_unpin i :
      i ∈ l →
      change l c (Some i) l
        (assign (Slot i) (fun x => set_refcnt (refcnt x - 1) x) c).

(** A call makes no change, one, or two ([bread]: the lookup, then the
    disk read). *)
Inductive effect (l : list nat) (c : bcache) : option nat → list nat → bcache → Prop :=
  | eff_none : effect l c None l c
  | eff_one dec l' c' : change l c dec l' c' → effect l c dec l' c'
  | eff_two c1 l' c' :
      change l c None l c1 → change l c1 None l' c' → effect l c None l' c'.

(** The calls that lower the count of [b]. *)
Definition releases (o : op) (b : ptr) : Prop :=
  match o with
  | Release _ b' | Unpin b' => b' = b
  | _ => False
  end.

(** Two buffers after [binit]; process 7 has then taken block (1, 5). *)
Definition example_boot : world := boot 2 blank.

Definition example_held : world := final (bget 3 7 1 5 example_boot).

(** Process 7 has pinned its buffer and released it: the buffer is still
    counted, and its sleep-lock is free. *)
Definition example_pinned : world :=
  final (exec 3 (Release 7 (Slot 0)) (final (exec 3 (Pin (Slot 0)) example_held))).

(** Buffer [q] names the same block, with the same validity and payload,
    in both caches. *)
Definition same_content (c c' : bcache) (q : ptr) : Prop :=
  dev (deref c' q) = dev (deref c q) ∧
  blockno (deref c' q) = blockno (deref c q) ∧
  valid (deref c' q) = valid (deref c q) ∧
  data (deref c' q) = data (deref c q).

(** Process 7 has read block (1, 5) into a cache of two buffers. *)
Definition example_read : world := final (bread 3 7 1 5 example_boot).

(** Process 7 has read block (0, 0): it holds buffer 1, the first of the
    list, while buffer 0 still carries the identity of static storage. *)
Definition example_zero : world := final (exec 3 (Read 7 0 0) example_boot).

(** Process 7 has read block (1, 5), pinned the buffer, unpinned it and
    released it: the count went 1, 2, 1, 0. *)
Definition example_counted : world :=
  final (exec 3 (Release 7 (Slot 0))
    (final (exec 3 (Unpin (Slot 0))
      (final (exec 3 (Pin (Slot 0))
        (final (exec 3 (Read 7 1 5) example_boot))))))).

(** Process 7 holds buffer 0 and has unpinned it without a pin: the
    buffer is locked and its count is 0. *)
Definition example_unpinned : world := final (exec 3 (Unpin (Slot 0)) example_held).

(** A caller that reads the blocks of a list one after the other and keeps
    every buffer. *)
Fixpoint bread_each (fuel : nat) (p : pid) (bs : list (Z * Z)) : M unit :=
  match bs with
  | [] => ret tt
  | (d, n) :: bs' => bread fuel p d n ;; bread_each fuel p bs'
  end.

(** Process [p] holds the blocks [pre], in buffers 0, 1, ... in this order,
    read and locked once each; the other buffers are as [binit] left them;
    the recency order is still that of [binit]. *)
Definition holding (N : nat) (p : pid) (pre : list (Z * Z)) (c : bcache) : Prop :=
  ring N c (reverse (seq 0 N)) ∧
  (∀ j x, pre !! j = Some x →
          ident c j = x ∧ refcnt (deref c (Slot j)) = 1 ∧
          lock (deref c (Slot j)) = Some p ∧ valid (deref c (Slot j)) = true) ∧
  (∀ j, (length pre ≤ j)%nat → (j < N)%nat →
        ident c j = (0, 0) ∧ refcnt (deref c (Slot j)) = 0 ∧
        lock (deref c (Slot j)) = None).

(** ** Reads after writes *)

Lemma length_assign p f c : length (bc_buf (assign p f c)) = length (bc_buf c).
Proof. destruct p; simpl; auto. apply length_insert. Qed.

Lemma in_range_assign p f c q : in_range (assign p f c) q ↔ in_range c q.
Proof. destruct q; simpl; try tauto. by rewrite length_assign. Qed.

Lemma deref_assign_ne p f c q : p ≠ q → deref (assign p f c) q = deref c q.
Proof.
  intros Hne. destruct p as [| |i], q as [| |j]; simpl; try done.
  rewrite list_lookup_insert_ne; [done | congruence].
Qed.

Lemma deref_assign_eq p f c : in_range c p → deref (assign p f c) p = f (deref c p).
Proof.
  destruct p as [| |i]; simpl; try done.
  intros Hi. by rewrite list_lookup_insert_eq.
Qed.

Lemma assign_out_of_range p f c : ¬ in_range c p → assign p f c = c.
Proof.
  destruct p as [| |i]; simpl; try tauto; intros Hi.
  unfold assign; simpl. rewrite list_insert_ge by lia. by destruct c.
Qed.

(** A field that the assignment does not name keeps its value everywhere. *)
Lemma field_assign {A} (g : buf → A) p f c q :
  (∀ x, g (f x) = g x) → g (deref (assign p f c) q) = g (deref c q).
Proof.
  intros Hg. destruct (decide (p = q)) as [<-|Hne].
  - destruct (decide (in_range c p)) as [Hin|Hout].
    + by rewrite deref_assign_eq, Hg.
    + by rewrite assign_out_of_range.
  - by rewrite deref_assign_ne.
Qed.

(** The field that the assignment names: new value at the target, old value
    elsewhere. *)
Lemma field_assign_at {A} (g : buf → A) p f c :
  in_range c p → g (deref (assign p f c) p) = g (f (deref c p)).
Proof. intros Hin. by rewrite deref_assign_eq. Qed.

Lemma field_assign_other {A} (g : buf → A) p f c q :
  p ≠ q → g (deref (assign p f c) q) = g (deref c q).
Proof. intros Hne. by rewrite deref_assign_ne. Qed.

#[global] Arguments deref : simpl never.
#[global] Arguments assign : simpl never.

(** ** Walks *)

Lemma link_set_link r p x : link r (set_link r p x) = p.
Proof. by destruct r. Qed.

Lemma link_set_next_bwd p x : link Bwd (set_next p x) = link Bwd x.
Proof. done. Qed.

Lemma link_set_prev_fwd p x : link Fwd (set_prev p x) = link Fwd x.
Proof. done. Qed.

Lemma lastp_in x l : lastp x l ∈ x :: (Slot <$> l).
Proof.
  revert x. induction l as [|i l IH]; intros x; simpl.
  - apply list_elem_of_here.
  - apply list_elem_of_further, IH.
Qed.

Lemma lastp_snoc x l i : lastp x (l ++ [i]) = Slot i.
Proof. revert x. induction l as [|j l IH]; intros x; simpl; auto. Qed.

Lemma lastp_reverse x l : lastp x (reverse l) = firstp l x.
Proof. destruct l as [|i l]; [done|]. by rewrite reverse_cons, lastp_snoc. Qed.

Lemma firstp_reverse y l : firstp (reverse l) y = lastp y l.
Proof. by rewrite <- (reverse_involutive l) at 2; rewrite lastp_reverse. Qed.

Section walks.
Variable r : dir.

(** A walk only reads the [r] link of its start and of the slots it
    meets. *)
Lemma walk_ext c c' x x' l y :
  link r (deref c' x') = link r (deref c x) →
  (∀ i, i ∈ l → link r (deref c' (Slot i)) = link r (deref c (Slot i))) →
  walk r c x l y → walk r c' x' l y.
Proof.
  revert x x'. induction l as [|i l IH]; intros x x' Hx Hl; simpl.
  - congruence.
  - intros [Hi Hw]. split; [congruence|].
    apply (IH (Slot i)); auto.
    + apply Hl, list_elem_of_here.
    + intros j Hj. by apply Hl, list_elem_of_further.
Qed.

Lemma walk_app c x l1 i l2 y :
  walk r c x (l1 ++ i :: l2) y ↔ walk r c x l1 (Slot i) ∧ walk r c (Slot i) l2 y.
Proof.
  revert x. induction l1 as [|j l1 IH]; intros x; simpl; [done|].
  rewrite IH. tauto.
Qed.

Lemma walk_snoc c x l i y :
  walk r c x (l ++ [i]) y ↔ walk r c x l (Slot i) ∧ link r (deref c (Slot i)) = y.
Proof. by rewrite walk_app. Qed.

Lemma walk_join c x l1 l2 y :
  walk r c x (l1 ++ l2) y ↔
  walk r c x l1 (firstp l2 y) ∧
  match l2 with [] => True | j :: l2' => walk r c (Slot j) l2' y end.
Proof.
  destruct l2 as [|j l2]; simpl.
  - rewrite app_nil_r. tauto.
  - apply walk_app.
Qed.

Lemma walk_first c x l y : walk r c x l y → link r (deref c x) = firstp l y.
Proof. destruct l; simpl; tauto. Qed.

Lemma walk_last c x l y : walk r c x l y → link r (deref c (lastp x l)) = y.
Proof. revert x. induction l as [|i l IH]; intros x; simpl; [done|]. intros [_ ?]; auto. Qed.

(** Redirecting the last link of a walk. *)
Lemma walk_retarget c x l y z :
  NoDup (x :: (Slot <$> l)) → in_range c (lastp x l) →
  walk r c x l y →
  walk r (assign (lastp x l) (set_link r z) c) x l z.
Proof.
  revert x. induction l as [|i l IH]; intros x Hnd Hin; simpl in *.
  - intros _. by rewrite deref_assign_eq, link_set_link.
  - intros [Hx Hw]. apply NoDup_cons in Hnd as [Hx' Hnd]. split.
    + rewrite deref_assign_ne; [done|].
      intros Heq. apply Hx'. rewrite <- Heq. apply lastp_in.
    + by apply IH.
Qed.
End walks.

(** Assignments that leave both links alone leave every walk alone. *)
Lemma walk_assign r p f c x l y :
  (∀ b, link r (f b) = link r b) →
  walk r (assign p f c) x l y ↔ walk r c x l y.
Proof.
  intros Hf. split; apply walk_ext; intros; by rewrite (field_assign (link r)).
Qed.

(** ** The loops of [bget] on a well-formed list *)

Lemma scan_cached_walk fuel d n c x l :
  walk Fwd c x l Head → (length l < fuel)%nat →
  scan_cached fuel d n c (next (deref c x)) =
  match find (cached d n c) l with
  | Some i => Found (Slot i)
  | None => NotFound
  end.
Proof.
  revert x fuel. induction l as [|i l IH]; intros x fuel Hw Hf;
    (destruct fuel as [|fuel]; [simpl in Hf; lia|]); simpl in *.
  - rewrite Hw. by rewrite decide_True.
  - destruct Hw as [-> Hw]. rewrite decide_False by done.
    unfold cached at 1. destruct (_ && _); [done|].
    apply IH; [done | lia].
Qed.

Lemma scan_unused_walk fuel c x l :
  walk Bwd c x l Head → (length l < fuel)%nat →
  scan_unused fuel c (prev (deref c x)) =
  match find (unused c) l with
  | Some i => Found (Slot i)
  | None => NotFound
  end.
Proof.
  revert x fuel. induction l as [|i l IH]; intros x fuel Hw Hf;
    (destruct fuel as [|fuel]; [simpl in Hf; lia|]); simpl in *.
  - rewrite Hw. by rewrite decide_True.
  - destruct Hw as [-> Hw]. rewrite decide_False by done.
    unfold unused at 1. destruct (_ =? _); [done|].
    apply IH; [done | lia].
Qed.

Lemma ring_length N c l : ring N c l → length l = N.
Proof. intros (_ & Hp & _). by rewrite Hp, length_seq. Qed.

Lemma ring_elem N c l i : ring N c l → i ∈ l ↔ (i < N)%nat.
Proof. intros (_ & Hp & _). rewrite Hp, elem_of_seq. lia. Qed.

Lemma ring_NoDup N c l : ring N c l → NoDup l.
Proof. intros (_ & Hp & _). rewrite Hp. apply NoDup_seq. Qed.

Lemma ring_in_range N c l i : ring N c l → i ∈ l → in_range c (Slot i).
Proof.
  intros Hr Hi. simpl. rewrite (proj1 Hr). by apply (ring_elem N c l i Hr).
Qed.

(** What [bget] does on a well-formed list, whatever the fuel above [N]. *)
Lemma bget_ring N c l fuel p d n w :
  cache w = c → ring N c l → (N < fuel)%nat →
  bget fuel p d n w =
  match find (cached d n c) l with
  | Some i => locked_return p (Slot i) (with_cache (hit (Slot i)) w)
  | None =>
      match find (unused c) (reverse l) with
      | Some i => locked_return p (Slot i) (with_cache (rebind d n (Slot i)) w)
      | None => Panic "bget:no buffers" w
      end
  end.
Proof.
  intros <- Hr Hf. pose proof (ring_length _ _ _ Hr) as Hlen.
  destruct Hr as (_ & _ & Hfw & Hbw). unfold bget.
  rewrite (scan_cached_walk _ _ _ _ _ l) by (done || lia).
  destruct (find _ l) as [i|]; [done|].
  rewrite (scan_unused_walk _ _ _ (reverse l)) by (done || rewrite length_reverse; lia).
  by destruct (find _ (reverse l)).
Qed.

(** ** Moving a buffer to the front *)

Lemma Head_not_slot (l : list nat) : Head ∉ Slot <$> l.
Proof. intros (k & ? & _)%list_elem_of_fmap. done. Qed.

Lemma NoDup_path (l : list nat) : NoDup l → NoDup (Head :: (Slot <$> l)).
Proof.
  intros Hnd. apply NoDup_cons. split; [apply Head_not_slot|].
  by apply (NoDup_fmap_2 Slot).
Qed.

Lemma path_inv x (l : list nat) : x ∈ Head :: (Slot <$> l) → x = Head ∨ ∃ k, x = Slot k ∧ k ∈ l.
Proof.
  intros [->|Hx]%elem_of_cons; [by left|right].
  by apply list_elem_of_fmap in Hx.
Qed.

Lemma firstp_in l y : firstp l y ∈ y :: (Slot <$> l).
Proof.
  destruct l as [|i l]; simpl; [apply list_elem_of_here|].
  apply list_elem_of_further, list_elem_of_here.
Qed.

Lemma path_in_range N c l x :
  length (bc_buf c) = N → (∀ k, k ∈ l → (k < N)%nat) →
  x ∈ Head :: (Slot <$> l) → in_range c x.
Proof.
  intros Hlen Hl [->|(k & -> & Hk)]%path_inv; simpl; [done|].
  rewrite Hlen. auto.
Qed.

Lemma walk_tail_ext r c c' x l y :
  (∀ k, k ∈ l → link r (deref c' (Slot k)) = link r (deref c (Slot k))) →
  walk r c x l y →
  match l with [] => True | j :: l' => walk r c' (Slot j) l' y end.
Proof.
  destruct l as [|j l]; simpl; [done|]. intros Hl [_ Hw].
  revert Hw. apply walk_ext.
  - apply Hl, list_elem_of_here.
  - intros k Hk. by apply Hl, list_elem_of_further.
Qed.

Lemma reverse_middle {A} (l1 l2 : list A) i :
  reverse (l1 ++ i :: l2) = reverse l2 ++ i :: reverse l1.
Proof. by rewrite reverse_app, reverse_cons, <- app_assoc. Qed.

(** The first two assignments take slot [i] out of both walks. *)
Lemma unlink_walks N c l1 i l2 :
  length (bc_buf c) = N → NoDup (l1 ++ i :: l2) →
  (∀ k, k ∈ l1 ++ i :: l2 → (k < N)%nat) →
  walks c (l1 ++ i :: l2) →
  walks (unlink (Slot i) c) (l1 ++ l2).
Proof.
  intros Hlen Hnd Hrange [Hfw Hbw].
  apply NoDup_app in Hnd as (Hnd1 & Hdisj & [Hi2 Hnd2]%NoDup_cons).
  assert (Hi1 : i ∉ l1) by (intros Hi; apply (Hdisj i Hi), list_elem_of_here).
  assert (Hdisj' : ∀ k, k ∈ l1 → k ∉ l2).
  { intros k Hk Hk2. by apply (Hdisj k Hk), list_elem_of_further. }
  apply walk_app in Hfw as [F1 F2].
  rewrite reverse_middle in Hbw. apply walk_app in Hbw as [B1 B2].
  assert (Hd : next (deref c (Slot i)) = firstp l2 Head)
    by apply (walk_first Fwd _ _ _ _ F2).
  assert (Ha : prev (deref c (Slot i)) = firstp (reverse l1) Head)
    by apply (walk_first Bwd _ _ _ _ B2).
  rewrite firstp_reverse in Ha.
  set (a := lastp Head l1) in *. set (d := firstp l2 Head) in *.
  assert (Hain : a ∈ Head :: (Slot <$> l1)) by apply lastp_in.
  assert (Hdin : d ∈ Head :: (Slot <$> l2)) by apply firstp_in.
  assert (Hdi : d ≠ Slot i).
  { intros Hx. rewrite Hx in Hdin. apply path_inv in Hdin as [?|(k & [= <-] & ?)]; done. }
  assert (Har : in_range c a).
  { apply (path_in_range N c l1); auto. intros k Hk. apply Hrange, elem_of_app; auto. }
  assert (Hdr : in_range c d).
  { apply (path_in_range N c l2); auto. intros k Hk.
    apply Hrange, elem_of_app. right. by apply list_elem_of_further. }
  assert (Ha2 : ∀ k, k ∈ l2 → a ≠ Slot k).
  { intros k Hk Hx. rewrite Hx in Hain.
    apply path_inv in Hain as [?|(k' & [= <-] & ?)]; [done|]. by apply (Hdisj' k). }
  assert (Hd1 : ∀ k, k ∈ l1 → d ≠ Slot k).
  { intros k Hk Hx. rewrite Hx in Hdin.
    apply path_inv in Hdin as [?|(k' & [= <-] & ?)]; [done|]. by apply (Hdisj' k). }
  unfold unlink. cbv zeta. rewrite Hd, Ha.
  rewrite !(deref_assign_ne d) by done. rewrite Hd, Ha.
  split.
  - apply walk_join. split.
    + apply walk_retarget with (y := Slot i).
      * by apply NoDup_path.
      * by apply in_range_assign.
      * by apply walk_assign.
    + revert F2. apply walk_tail_ext. intros k Hk.
      rewrite deref_assign_ne by auto.
      by rewrite (field_assign (link Fwd)).
  - rewrite reverse_app. apply walk_join. rewrite firstp_reverse. fold a. split.
    + apply walk_assign; [done|].
      replace d with (lastp Head (reverse l2)) by apply lastp_reverse.
      apply walk_retarget with (r := Bwd) (y := Slot i).
      * apply NoDup_path. by rewrite reverse_Permutation.
      * by rewrite lastp_reverse.
      * done.
    + revert B2. apply walk_tail_ext. intros k Hk. rewrite elem_of_reverse in Hk.
      rewrite (field_assign (link Bwd)) by done.
      rewrite deref_assign_ne by auto. done.
Qed.

Lemma walks_assign p f c l :
  (∀ b, next (f b) = next b) → (∀ b, prev (f b) = prev b) →
  walks (assign p f c) l ↔ walks c l.
Proof.
  intros Hn Hp. unfold walks.
  by rewrite !walk_assign by (intros b; simpl; auto).
Qed.

Lemma stage_front_staged N c l i :
  length (bc_buf c) = N → (i < N)%nat → i ∉ l →
  walks c l → staged (stage_front (Slot i) c) l i.
Proof.
  intros Hlen Hi Hil [Hfw Hbw]. unfold stage_front; cbv zeta.
  assert (Hr : in_range c (Slot i)) by (simpl; lia).
  repeat split.
  - revert Hfw. apply walk_ext.
    + by rewrite !deref_assign_ne.
    + intros k Hk. rewrite !deref_assign_ne; [done|intros [= ->]; done..].
  - revert Hbw. apply walk_ext.
    + by rewrite !deref_assign_ne.
    + intros k Hk. rewrite elem_of_reverse in Hk.
      rewrite !deref_assign_ne; [done|intros [= ->]; done..].
  - rewrite (field_assign next) by done.
    rewrite deref_assign_eq by done. by rewrite !deref_assign_ne.
  - by rewrite deref_assign_eq by (by apply in_range_assign).
Qed.

Lemma staged_assign p f c l i :
  (∀ b, next (f b) = next b) → (∀ b, prev (f b) = prev b) →
  staged c l i → staged (assign p f c) l i.
Proof.
  intros Hn Hp (Hw & Hni & Hpi). split; [by apply walks_assign|].
  by rewrite !(field_assign next), (field_assign prev).
Qed.

(** The last two assignments put a staged slot in front of both walks. *)
Lemma splice_front_walks N c l i :
  length (bc_buf c) = N → NoDup l → (∀ k, k ∈ l → (k < N)%nat) → i ∉ l →
  staged c l i → walks (splice_front (Slot i) c) (i :: l).
Proof.
  intros Hlen Hnd Hrange Hil ([Hfw Hbw] & Hni & Hpi).
  assert (Hh : next (deref c Head) = firstp l Head)
    by apply (walk_first Fwd _ _ _ _ Hfw).
  set (h := firstp l Head) in *.
  assert (Hhin : h ∈ Head :: (Slot <$> l)) by apply firstp_in.
  assert (Hhr : in_range c h) by by apply (path_in_range N c l).
  assert (Hhi : h ≠ Slot i).
  { intros Hx. rewrite Hx in Hhin.
    apply path_inv in Hhin as [?|(k & [= <-] & ?)]; done. }
  unfold splice_front; cbv zeta. rewrite Hh. split.
  - simpl. split; [done|].
    revert Hfw. apply walk_ext.
    + rewrite deref_assign_ne by done.
      rewrite (field_assign (link Fwd)) by done. apply Hni.
    + intros k Hk. rewrite deref_assign_ne by done.
      by rewrite (field_assign (link Fwd)).
  - rewrite reverse_cons. apply walk_snoc. split.
    + apply walk_assign; [done|].
      replace h with (lastp Head (reverse l)) by apply lastp_reverse.
      apply walk_retarget with (r := Bwd) (y := Head).
      * apply NoDup_path. by rewrite reverse_Permutation.
      * by rewrite lastp_reverse.
      * done.
    + rewrite (field_assign (link Bwd)) by done.
      by rewrite deref_assign_ne.
Qed.

Lemma push_front_walks N c l i :
  length (bc_buf c) = N → NoDup l → (∀ k, k ∈ l → (k < N)%nat) →
  (i < N)%nat → i ∉ l →
  walks c l → walks (push_front (Slot i) c) (i :: l).
Proof.
  intros Hlen Hnd Hrange Hi Hil Hw. unfold push_front.
  apply (splice_front_walks N); auto.
  - unfold stage_front; cbv zeta. by rewrite !length_assign.
  - by apply (stage_front_staged N).
Qed.

Lemma length_unlink b c : length (bc_buf (unlink b c)) = length (bc_buf c).
Proof. unfold unlink; cbv zeta. by rewrite !length_assign. Qed.

Lemma length_push_front b c :
  length (bc_buf (push_front b c)) = length (bc_buf c).
Proof.
  unfold push_front, splice_front, stage_front; cbv zeta.
  by rewrite !length_assign.
Qed.

(** Moving slot [i] of a well-formed list to the front keeps the list well
    formed, with [i] first and the other slots in their former order. *)
Lemma move_front_ring N c l1 i l2 :
  ring N c (l1 ++ i :: l2) →
  ring N (push_front (Slot i) (unlink (Slot i) c)) (i :: l1 ++ l2).
Proof.
  intros Hr. pose proof (ring_NoDup _ _ _ Hr) as Hnd.
  assert (Hrange : ∀ k, k ∈ l1 ++ i :: l2 → (k < N)%nat)
    by (intros k; apply (ring_elem _ _ _ _ Hr)).
  destruct Hr as (Hlen & Hperm & Hw).
  assert (Hnd' : NoDup (i :: l1 ++ l2)).
  { rewrite Permutation_middle. done. }
  apply NoDup_cons in Hnd' as [Hil Hnd'].
  split; [by rewrite length_push_front, length_unlink|].
  split; [by rewrite Permutation_middle|].
  apply (push_front_walks N); auto.
  - by rewrite length_unlink.
  - intros k Hk. apply Hrange. rewrite <- Permutation_middle.
    by apply list_elem_of_further.
  - apply Hrange. rewrite <- Permutation_middle. apply list_elem_of_here.
  - by apply (unlink_walks N).
Qed.

(** ** [binit] *)

Lemma binit_body_split i c :
  binit_body i c =
  splice_front (Slot i) (assign (Slot i) (set_lock None) (stage_front (Slot i) c)).
Proof. reflexivity. Qed.

Lemma length_binit_body i c :
  length (bc_buf (binit_body i c)) = length (bc_buf c).
Proof. unfold binit_body; cbv zeta. by rewrite !length_assign. Qed.

Lemma binit_loop N c k :
  length (bc_buf c) = N → (k ≤ N)%nat → walks c [] →
  length (bc_buf (foldl (fun c i => binit_body i c) c (seq 0 k))) = N ∧
  walks (foldl (fun c i => binit_body i c) c (seq 0 k)) (reverse (seq 0 k)).
Proof.
  intros Hlen Hk Hw. induction k as [|k IH]; [done|].
  destruct IH as [Hlen' Hw']; [lia|].
  rewrite seq_S, foldl_app, reverse_snoc. cbn [foldl Nat.add].
  split; [by rewrite length_binit_body|].
  rewrite binit_body_split.
  assert (Hnk : k ∉ reverse (seq 0 k)).
  { rewrite elem_of_reverse, elem_of_seq. lia. }
  apply (splice_front_walks N).
  - unfold stage_front; cbv zeta. by rewrite !length_assign.
  - rewrite reverse_Permutation. apply NoDup_seq.
  - intros j. rewrite elem_of_reverse, elem_of_seq. lia.
  - done.
  - apply staged_assign; [done..|].
    apply (stage_front_staged N); auto with lia.
Qed.

Lemma binit_ring N c :
  length (bc_buf c) = N → ring N (binit N c) (reverse (seq 0 N)).
Proof.
  intros Hlen. unfold binit; cbv zeta.
  destruct (binit_loop N
    (assign Head (set_next Head) (assign Head (set_prev Head) c)) N) as [H1 H2].
  - by rewrite !length_assign.
  - done.
  - split.
    + unfold walk, link. by rewrite deref_assign_eq.
    + change (prev (deref (assign Head (set_next Head)
                (assign Head (set_prev Head) c)) Head) = Head).
      rewrite (field_assign prev) by done. by rewrite deref_assign_eq.
  - split; [done|]. split; [apply reverse_Permutation|done].
Qed.

(** [binit] assigns links and locks only. *)
Lemma binit_field {A} (g : buf → A) N c q :
  (∀ p x, g (set_next p x) = g x) → (∀ p x, g (set_prev p x) = g x) →
  (∀ x, g (set_lock None x) = g x) →
  g (deref (binit N c) q) = g (deref c q).
Proof.
  intros Hn Hp Hl. unfold binit; cbv zeta.
  transitivity (g (deref (assign Head (set_next Head)
                            (assign Head (set_prev Head) c)) q)).
  2: { by rewrite !(field_assign g). }
  generalize (assign Head (set_next Head) (assign Head (set_prev Head) c)).
  intros c'. induction N as [|N IH]; [done|].
  rewrite seq_S, foldl_app. cbn [foldl Nat.add]. rewrite <- IH.
  unfold binit_body; cbv zeta. by rewrite !(field_assign g).
Qed.

Lemma deref_bcache0 N p : deref (bcache0 N) p = buf0.
Proof.
  destruct p as [| |i]; try done. unfold deref; simpl.
  destruct (replicate N buf0 !! i) eqn:E; [|done].
  by apply lookup_replicate in E as [-> _].
Qed.

Lemma length_bcache0 N : length (bc_buf (bcache0 N)) = N.
Proof. apply length_replicate. Qed.

Lemma lock_release_assign p c q :
  lock (deref c q) = None → lock (deref (assign p (set_lock None) c) q) = None.
Proof.
  intros Hq. destruct (decide (p = q)) as [<-|Hne].
  - destruct (decide (in_range c p)).
    + by rewrite deref_assign_eq.
    + by rewrite assign_out_of_range.
  - by rewrite deref_assign_ne.
Qed.

Lemma binit_lock N c q :
  lock (deref c q) = None → lock (deref (binit N c) q) = None.
Proof.
  intros Hq. unfold binit; cbv zeta.
  assert (H0 : lock (deref (assign Head (set_next Head)
                              (assign Head (set_prev Head) c)) q) = None).
  { by rewrite !(field_assign lock). }
  revert H0.
  generalize (assign Head (set_next Head) (assign Head (set_prev Head) c)).
  intros c' Hc'. induction N as [|N IH]; [done|].
  rewrite seq_S, foldl_app. cbn [foldl Nat.add].
  unfold binit_body; cbv zeta. rewrite !(field_assign lock) by done.
  apply lock_release_assign. by rewrite !(field_assign lock).
Qed.

(** ** The calls, one by one *)

Lemma locked_return_cases p b w :
  locked_return p b w =
  match lock (deref (cache w) b) with
  | None => Ret b (with_cache (assign b (set_lock (Some p))) w)
  | Some _ => Sleeping b w
  end.
Proof.
  unfold locked_return, bind, acquiresleep, ret.
  by destruct (lock (deref (cache w) b)).
Qed.

Lemma bread_cases fuel p d n w :
  bread fuel p d n w =
  match bget fuel p d n w with
  | Ret b w1 => Ret b (if valid (deref (cache w1) b) then w1 else filled b w1)
  | Panic m w1 => Panic m w1
  | Sleeping b w1 => Sleeping b w1
  | Looping w1 => Looping w1
  end.
Proof.
  unfold bread, bind at 1. destruct (bget fuel p d n w) as [b w1| | |]; try done.
  unfold bind, load. by destruct (valid (deref (cache w1) b)).
Qed.

Lemma bwrite_cases p b w :
  bwrite p b w =
  if bool_decide (lock (deref (cache w) b) = Some p) then virtio_disk_rw b true w
  else Panic "bwrite" w.
Proof.
  unfold bwrite, bind, holdingsleep, load. by destruct (bool_decide _).
Qed.

Lemma brelse_cases p b w :
  brelse p b w =
  if bool_decide (lock (deref (cache w) b) = Some p)
  then Ret tt (with_cache (released b) w)
  else Panic "brelse" w.
Proof.
  unfold brelse, bind at 1, holdingsleep, load.
  destruct (bool_decide _); [|done].
  unfold released, bind, releasesleep, update, load, ret, with_cache; simpl.
  by destruct (refcnt _ =? 0).
Qed.

(** ** Searching a list *)

Lemma find_None_all {A} (f : A → bool) l :
  find f l = None ↔ ∀ x, x ∈ l → f x = false.
Proof.
  induction l as [|a l IH]; simpl.
  - split; [|done]. intros _ x Hx. by apply elem_of_nil in Hx.
  - destruct (f a) eqn:E.
    + split; [done|]. intros H. specialize (H a (list_elem_of_here _ _)). congruence.
    + rewrite IH. split.
      * intros H x [->|Hx]%elem_of_cons; auto.
      * intros H x Hx. by apply H, list_elem_of_further.
Qed.

Lemma find_Some_split {A} (f : A → bool) l i :
  find f l = Some i ↔
  ∃ l1 l2, l = l1 ++ i :: l2 ∧ f i = true ∧ ∀ x, x ∈ l1 → f x = false.
Proof.
  split.
  - induction l as [|a l IH]; simpl; [done|].
    destruct (f a) eqn:E.
    + intros [= ->]. exists [], l. split; [done|]. split; [done|].
      intros x Hx. by apply elem_of_nil in Hx.
    + intros (l1 & l2 & -> & Hi & Hl1)%IH. exists (a :: l1), l2.
      split; [done|]. split; [done|].
      intros x [->|Hx]%elem_of_cons; auto.
  - intros (l1 & l2 & -> & Hi & Hl1). induction l1 as [|a l1 IH]; simpl.
    + by rewrite Hi.
    + rewrite (Hl1 a) by apply list_elem_of_here.
      apply IH. intros x Hx. by apply Hl1, list_elem_of_further.
Qed.

Lemma find_reverse_split {A} (f : A → bool) l i :
  find f (reverse l) = Some i ↔
  ∃ l1 l2, l = l1 ++ i :: l2 ∧ f i = true ∧ ∀ x, x ∈ l2 → f x = false.
Proof.
  rewrite find_Some_split. split.
  - intros (a & b & Hl & Hi & Ha). exists (reverse b), (reverse a).
    split; [|split; [done|]].
    + by rewrite <- reverse_middle, <- Hl, reverse_involutive.
    + intros x Hx. apply Ha. by rewrite <- elem_of_reverse.
  - intros (l1 & l2 & -> & Hi & Hl2). exists (reverse l2), (reverse l1).
    split; [apply reverse_middle|]. split; [done|].
    intros x Hx. apply Hl2. by rewrite <- elem_of_reverse.
Qed.

Lemma find_ext {A} (f g : A → bool) l :
  (∀ x, x ∈ l → f x = g x) → find f l = find g l.
Proof.
  induction l as [|a l IH]; intros H; simpl; [done|].
  rewrite <- (H a) by apply list_elem_of_here.
  destruct (f a); [done|]. apply IH. intros x Hx. by apply H, list_elem_of_further.
Qed.

Lemma find_drop {A} (f : A → bool) l1 k l2 :
  f k = false → find f (l1 ++ k :: l2) = find f (l1 ++ l2).
Proof.
  intros Hk. induction l1 as [|a l1 IH]; simpl.
  - by rewrite Hk.
  - by rewrite IH.
Qed.

Lemma cached_true d n c i : cached d n c i = true ↔ ident c i = (d, n).
Proof.
  unfold cached, ident. rewrite andb_true_iff, !Z.eqb_eq.
  split; [by intros [-> ->]|by intros [= -> ->]].
Qed.

Lemma cached_false d n c i : cached d n c i = false ↔ ident c i ≠ (d, n).
Proof. rewrite <- cached_true. by destruct (cached d n c i). Qed.

Lemma unused_true c i : unused c i = true ↔ refcnt (deref c (Slot i)) = 0.
Proof. unfold unused. apply Z.eqb_eq. Qed.

Lemma unused_false c i : unused c i = false ↔ refcnt (deref c (Slot i)) ≠ 0.
Proof. unfold unused. apply Z.eqb_neq. Qed.

(** ** Fields after the cache transformers *)

Lemma links_assign p f c :
  (∀ x, next (f x) = next x) → (∀ x, prev (f x) = prev x) →
  links (assign p f c) = links c.
Proof.
  intros Hn Hp. unfold links, assign, store, deref.
  destruct p as [| |i]; simpl; [done|by rewrite Hn, Hp|].
  f_equal. rewrite list_fmap_insert. apply list_insert_id'. intros Hi.
  rewrite length_fmap in Hi. apply lookup_lt_is_Some_2 in Hi as [x Hx].
  rewrite list_lookup_fmap, Hx. simpl. by rewrite Hn, Hp.
Qed.

Lemma ring_assign N p f c l :
  (∀ x, next (f x) = next x) → (∀ x, prev (f x) = prev x) →
  ring N (assign p f c) l ↔ ring N c l.
Proof.
  intros Hn Hp. unfold ring. by rewrite length_assign, walks_assign.
Qed.

Lemma ident_assign p f c i :
  (∀ x, dev (f x) = dev x) → (∀ x, blockno (f x) = blockno x) →
  ident (assign p f c) i = ident c i.
Proof. intros Hd Hb. unfold ident. by rewrite (field_assign dev), (field_assign blockno). Qed.

Lemma field_unlink {A} (g : buf → A) b c q :
  (∀ p x, g (set_next p x) = g x) → (∀ p x, g (set_prev p x) = g x) →
  g (deref (unlink b c) q) = g (deref c q).
Proof. intros Hn Hp. unfold unlink; cbv zeta. by rewrite !(field_assign g). Qed.

Lemma field_push_front {A} (g : buf → A) b c q :
  (∀ p x, g (set_next p x) = g x) → (∀ p x, g (set_prev p x) = g x) →
  g (deref (push_front b c) q) = g (deref c q).
Proof.
  intros Hn Hp. unfold push_front, splice_front, stage_front; cbv zeta.
  by rewrite !(field_assign g).
Qed.

Lemma field_released {A} (g : buf → A) b c q :
  (∀ p x, g (set_next p x) = g x) → (∀ p x, g (set_prev p x) = g x) →
  g (deref (released b c) q) = g (deref (uncounted b c) q).
Proof.
  intros Hn Hp. unfold released; cbv zeta. fold (uncounted b c).
  destruct (_ =? 0); [|done].
  by rewrite field_push_front, field_unlink.
Qed.

Lemma deref_uncounted_eq b c :
  in_range c b →
  deref (uncounted b c) b = set_refcnt (refcnt (deref c b) - 1) (set_lock None (deref c b)).
Proof.
  intros Hb. unfold uncounted.
  rewrite deref_assign_eq by (by apply in_range_assign).
  by rewrite deref_assign_eq.
Qed.

Lemma deref_uncounted_ne b c q : b ≠ q → deref (uncounted b c) q = deref c q.
Proof. intros Hne. unfold uncounted. by rewrite !deref_assign_ne. Qed.

Lemma deref_rebind_eq d n b c :
  in_range c b →
  deref (rebind d n b c) b =
  set_refcnt 1 (set_valid false (set_blockno n (set_dev d (deref c b)))).
Proof.
  intros Hb. unfold rebind.
  by rewrite !deref_assign_eq by (by rewrite ?in_range_assign).
Qed.

Lemma deref_rebind_ne d n b c q : b ≠ q → deref (rebind d n b c) q = deref c q.
Proof. intros Hne. unfold rebind. by rewrite !deref_assign_ne. Qed.

Lemma deref_hit_eq b c :
  in_range c b → deref (hit b c) b = set_refcnt (refcnt (deref c b) + 1) (deref c b).
Proof. intros Hb. unfold hit. by rewrite deref_assign_eq. Qed.

Lemma deref_hit_ne b c q : b ≠ q → deref (hit b c) q = deref c q.
Proof. intros Hne. unfold hit. by rewrite deref_assign_ne. Qed.

Lemma released_stay b c :
  in_range c b → refcnt (deref c b) - 1 ≠ 0 → released b c = uncounted b c.
Proof.
  intros Hb Hr. unfold released; cbv zeta. fold (uncounted b c).
  rewrite deref_uncounted_eq by done. simpl. by rewrite (proj2 (Z.eqb_neq _ _)).
Qed.

Lemma released_move b c :
  in_range c b → refcnt (deref c b) - 1 = 0 →
  released b c = push_front b (unlink b (uncounted b c)).
Proof.
  intros Hb Hr. unfold released; cbv zeta. fold (uncounted b c).
  rewrite deref_uncounted_eq by done. simpl. by rewrite Hr.
Qed.

Lemma ring_uncounted N b c l : ring N (uncounted b c) l ↔ ring N c l.
Proof. unfold uncounted. by rewrite !ring_assign. Qed.

Lemma links_uncounted b c : links (uncounted b c) = links c.
Proof. unfold uncounted. by rewrite !links_assign. Qed.

Lemma bget_unfold fuel p d n w :
  bget fuel p d n w =
  match scan_cached fuel d n (cache w) (next (deref (cache w) Head)) with
  | Found b => locked_return p b (with_cache (hit b) w)
  | Unfinished => Looping w
  | NotFound =>
      match scan_unused fuel (cache w) (prev (deref (cache w) Head)) with
      | Found b => locked_return p b (with_cache (rebind d n b) w)
      | Unfinished => Looping w
      | NotFound => Panic "bget:no buffers" w
      end
  end.
Proof. reflexivity. Qed.

(** What [bget] leaves behind, however it ends: the disk, the trace and the
    links are those it found. *)
Lemma bget_frame fuel p d n w :
  disk (final (bget fuel p d n w)) = disk w ∧
  io (final (bget fuel p d n w)) = io w ∧
  links (cache (final (bget fuel p d n w))) = links (cache w).
Proof.
  rewrite bget_unfold.
  destruct (scan_cached _ _ _ _ _) as [b| |]; [|
    destruct (scan_unused _ _ _) as [b| |]|]; try done;
    rewrite locked_return_cases;
    destruct (lock _); simpl; unfold hit, rebind;
    by rewrite !links_assign.
Qed.

Lemma held_in_range p b c : lock (deref c b) = Some p → in_range c b.
Proof.
  destruct b as [| |i]; simpl; try done. unfold deref.
  destruct (bc_buf c !! i) eqn:E; [|done]. intros _. by eapply lookup_lt_Some.
Qed.

Lemma links_fill b blk c :
  links (assign b (set_valid true) (assign b (set_data blk) c)) = links c.
Proof. by rewrite !links_assign. Qed.

(** Closed instances of [ring] on computed caches. *)
Ltac walks_now := split; vm_compute; repeat split; reflexivity.
Ltac slot_cases i H :=
  do 3 (try (destruct i as [|i]; [try (vm_compute; congruence); try (vm_compute; lia)|]));
  try (exfalso; lia).

Lemma cache_with_cache f w : cache (with_cache f w) = f (cache w).
Proof. reflexivity. Qed.

(** How [bget] returns on a well-formed list. *)
Lemma bget_Ret N l fuel p d n w b w1 :
  ring N (cache w) l → (N < fuel)%nat →
  bget fuel p d n w = Ret b w1 →
  ∃ i, b = Slot i ∧ i ∈ l ∧ disk w1 = disk w ∧ io w1 = io w ∧
       lock (deref (cache w) (Slot i)) = None ∧
       ((find (cached d n (cache w)) l = Some i ∧
         cache w1 = assign (Slot i) (set_lock (Some p)) (hit (Slot i) (cache w))) ∨
        (find (cached d n (cache w)) l = None ∧
         find (unused (cache w)) (reverse l) = Some i ∧
         cache w1 = assign (Slot i) (set_lock (Some p)) (rebind d n (Slot i) (cache w)))).
Proof.
  intros Hr Hf. rewrite (bget_ring N (cache w) l) by done.
  destruct (find (cached d n (cache w)) l) as [i|] eqn:E1.
  - rewrite locked_return_cases, cache_with_cache.
    unfold hit at 1. rewrite (field_assign lock) by done.
    destruct (lock (deref (cache w) (Slot i))) eqn:El; [done|].
    intros [= <- <-]. exists i. repeat split; auto.
    apply find_Some_split in E1 as (l1 & l2 & -> & _).
    apply elem_of_app. right. apply list_elem_of_here.
  - destruct (find (unused (cache w)) (reverse l)) as [i|] eqn:E2; [|done].
    rewrite locked_return_cases, cache_with_cache.
    unfold rebind at 1. rewrite !(field_assign lock) by done.
    destruct (lock (deref (cache w) (Slot i))) eqn:El; [done|].
    intros [= <- <-]. exists i. repeat split; auto.
    apply find_reverse_split in E2 as (l1 & l2 & -> & _).
    apply elem_of_app. right. apply list_elem_of_here.
Qed.

Lemma bget_terminates N l fuel p d n w :
  ring N (cache w) l → (N < fuel)%nat →
  ∀ w1, bget fuel p d n w ≠ Looping w1.
Proof.
  intros Hr Hf w1. rewrite (bget_ring N (cache w) l) by done.
  destruct (find (cached d n (cache w)) l) as [i|];
    [|destruct (find (unused (cache w)) (reverse l)) as [i|]; [|done]];
    rewrite locked_return_cases; by destruct (lock _).
Qed.

Lemma bget_Ret_ident N l fuel p d n w b w1 :
  ring N (cache w) l → (N < fuel)%nat →
  bget fuel p d n w = Ret b w1 →
  ∃ i, b = Slot i ∧ i ∈ l ∧ ident (cache w1) i = (d, n) ∧ ring N (cache w1) l.
Proof.
  intros Hr Hf Hb.
  destruct (bget_Ret _ _ _ _ _ _ _ _ _ Hr Hf Hb)
    as (i & -> & Hi & _ & _ & _ & [(Hfind & ->)|(_ & _ & ->)]);
    exists i; (split; [done|]); (split; [done|]).
  - split.
    + unfold hit. rewrite !ident_assign by done.
      apply cached_true. by apply find_Some_split in Hfind as (? & ? & _ & ? & _).
    + unfold hit. by rewrite !ring_assign.
  - split.
    + rewrite ident_assign by done. unfold ident.
      rewrite deref_rebind_eq by (by eapply ring_in_range). done.
    + unfold rebind. by rewrite !ring_assign.
Qed.

Lemma cached_ident d n c c' x :
  ident c' x = ident c x → cached d n c' x = cached d n c x.
Proof.
  intros H. destruct (cached d n c x) eqn:E.
  - apply cached_true. rewrite H. by apply cached_true.
  - apply cached_false. rewrite H. by apply cached_false.
Qed.

Lemma ident_rebind_eq c d n i0 p :
  in_range c (Slot i0) →
  ident (assign (Slot i0) (set_lock (Some p)) (rebind d n (Slot i0) c)) i0 = (d, n).
Proof.
  intros Hin. rewrite ident_assign by done. unfold ident.
  by rewrite deref_rebind_eq.
Qed.

Lemma deref_rebind_lock_ne c d n i0 p q :
  Slot i0 ≠ q →
  deref (assign (Slot i0) (set_lock (Some p)) (rebind d n (Slot i0) c)) q = deref c q.
Proof. intros Hne. by rewrite deref_assign_ne, deref_rebind_ne. Qed.

Lemma bget_Ret_first N l fuel p d n w b w1 :
  ring N (cache w) l → (N < fuel)%nat →
  bget fuel p d n w = Ret b w1 →
  ∃ i, b = Slot i ∧ find (cached d n (cache w1)) l = Some i.
Proof.
  intros Hr Hf Hb. pose proof (ring_NoDup _ _ _ Hr) as Hnd.
  destruct (bget_Ret _ _ _ _ _ _ _ _ _ Hr Hf Hb)
    as (i & -> & Hi & _ & _ & Hl & [(Hfind & Hc)|(Hfind & Hu & Hc)]);
    exists i; (split; [done|]); rewrite Hc.
  - rewrite <- Hfind. apply find_ext. intros x _. apply cached_ident.
    unfold hit. by rewrite !ident_assign.
  - assert (Hin : in_range (cache w) (Slot i)) by by eapply ring_in_range.
    apply list_elem_of_split in Hi as (l1 & l2 & ->).
    apply find_Some_split. exists l1, l2. split; [done|]. split.
    + apply cached_true. by rewrite ident_rebind_eq.
    + intros x Hx. rewrite find_None_all in Hfind.
      rewrite <- (Hfind x) by (apply elem_of_app; auto).
      apply cached_ident. unfold ident.
      rewrite deref_rebind_lock_ne; [done|]. intros [= ->].
      apply NoDup_app in Hnd as (_ & Hd & _).
      apply (Hd x Hx), list_elem_of_here.
Qed.

Lemma final_bind_ret {A} (m : M A) w :
  final ((m ;; ret tt) w) = final (m w).
Proof. unfold bind. by destruct (m w). Qed.

(** ** Calls as changes *)

(** What [bget] has done to the cache when it ends, however it ends. *)
Lemma bget_final_change N l p d n w :
  ring N (cache w) l →
  cache (final (bget (S N) p d n w)) = cache w ∨
  change l (cache w) None l (cache (final (bget (S N) p d n w))).
Proof.
  intros Hr. rewrite (bget_ring N (cache w) l) by (done || lia).
  destruct (find (cached d n (cache w)) l) as [i|] eqn:E1.
  - assert (Hi : i ∈ l).
    { apply find_Some_split in E1 as (l1 & l2 & -> & _).
      apply elem_of_app. right. apply list_elem_of_here. }
    rewrite locked_return_cases, cache_with_cache.
    replace (lock (deref (hit (Slot i) (cache w)) (Slot i)))
      with (lock (deref (cache w) (Slot i)))
      by (unfold hit; by rewrite (field_assign lock)).
    destruct (lock (deref (cache w) (Slot i))) eqn:El;
      cbn [final]; rewrite ?cache_with_cache; right.
    + by apply ch_pin.
    + by apply (ch_hit _ _ i p d n).
  - destruct (find (unused (cache w)) (reverse l)) as [i|] eqn:E2; [|by left].
    rewrite locked_return_cases, cache_with_cache.
    replace (lock (deref (rebind d n (Slot i) (cache w)) (Slot i)))
      with (lock (deref (cache w) (Slot i)))
      by (unfold rebind; by rewrite !(field_assign lock)).
    destruct (lock (deref (cache w) (Slot i))) eqn:El;
      cbn [final]; rewrite ?cache_with_cache; right.
    + by apply (ch_rebind_wait _ _ i d n).
    + by apply (ch_rebind _ _ i p d n).
Qed.

Lemma exec_final_effect N l o w :
  ring N (cache w) l → op_ok N o →
  ∃ dec l', effect l (cache w) dec l' (cache (final (exec (S N) o w))) ∧
            (∀ i, dec = Some i → releases o (Slot i)).
Proof.
  intros Hr Hok. destruct o as [p d n|p d n|p b|p b|b|b]; cbn [exec].
  - rewrite final_bind_ret. exists None, l. split; [|done].
    destruct (bget_final_change N l p d n w Hr) as [->|Hc];
      [apply eff_none|by apply eff_one].
  - rewrite final_bind_ret, bread_cases. exists None, l. split; [|done].
    pose proof (bget_final_change N l p d n w Hr) as Hc.
    destruct (bget (S N) p d n w) as [b w1| | |] eqn:E; cbn [final] in *;
      try (destruct Hc as [->|Hc]; [apply eff_none|by apply eff_one]).
    destruct (bget_Ret_first N l _ _ _ _ _ _ _ Hr (Nat.lt_succ_diag_r N) E)
      as (i & -> & Hfirst).
    destruct (valid (deref (cache w1) (Slot i)));
      [destruct Hc as [->|Hc]; [apply eff_none|by apply eff_one]|].
    assert (Hfill : change l (cache w1) None l (cache (filled (Slot i) w1))).
    { unfold filled; cbn [cache]. by apply (ch_fill _ _ i _ d n). }
    destruct Hc as [Hc|Hc].
    + rewrite <- Hc. by apply eff_one.
    + by apply (eff_two _ _ (cache w1)).
  - rewrite bwrite_cases. exists None, l. split; [|done].
    destruct (bool_decide _); apply eff_none.
  - rewrite brelse_cases. destruct (bool_decide _) eqn:E.
    + apply bool_decide_eq_true in E.
      destruct b as [| |i]; try done. simpl in Hok.
      apply (ring_elem _ _ _ _ Hr) in Hok.
      apply list_elem_of_split in Hok as (l1 & l2 & Hl).
      exists (Some i). eexists. split.
      * apply eff_one. cbn [final]. rewrite cache_with_cache. by eapply ch_release.
      * by intros ? [= <-].
    + exists None, l. split; [apply eff_none|done].
  - destruct b as [| |i]; try done. simpl in Hok.
    apply (ring_elem _ _ _ _ Hr) in Hok.
    exists None, l. split; [|done]. apply eff_one. by apply ch_pin.
  - destruct b as [| |i]; try done. simpl in Hok.
    apply (ring_elem _ _ _ _ Hr) in Hok.
    exists (Some i), l. split; [|by intros ? [= <-]]. apply eff_one.
    by apply ch_unpin.
Qed.

Lemma exec_effect N l o w w' :
  ring N (cache w) l → op_ok N o → exec (S N) o w = Ret tt w' →
  ∃ dec l', effect l (cache w) dec l' (cache w') ∧
            (∀ i, dec = Some i → releases o (Slot i)).
Proof.
  intros Hr Hok Hex. pose proof (exec_final_effect N l o w Hr Hok) as H.
  by rewrite Hex in H.
Qed.

Lemma change_ring N l c dec l' c' :
  ring N c l → change l c dec l' c' → ring N c' l'.
Proof.
  intros Hr Hc.
  destruct Hc as [i p d n|i p d n|i d n|i blk d n|l1 i l2 p Hl Hheld|i|i].
  - unfold hit. by rewrite !ring_assign.
  - unfold rebind. by rewrite !ring_assign.
  - unfold rebind. by rewrite !ring_assign.
  - by rewrite !ring_assign.
  - assert (Hin : in_range c (Slot i)) by by eapply held_in_range.
    destruct (Z.eqb_spec (refcnt (deref c (Slot i)) - 1) 0) as [Hz|Hz].
    + rewrite released_move by done. subst l.
      by apply move_front_ring, ring_uncounted.
    + rewrite released_stay by done. by apply ring_uncounted.
  - unfold hit. by rewrite !ring_assign.
  - by rewrite !ring_assign.
Qed.

(** ** Recency order *)

Lemma before_alt l i j : before l i j ↔ ∃ k1 k2, l = k1 ++ i :: k2 ∧ j ∈ k2.
Proof.
  unfold before. rewrite sublist_cons_l.
  by setoid_rewrite singleton_sublist_l.
Qed.

Lemma before_ne l i j : NoDup l → before l i j → i ≠ j.
Proof.
  intros Hnd Hb. apply (sublist_NoDup _ _ Hnd) in Hb.
  apply NoDup_cons in Hb as [Hi _]. intros ->. apply Hi, list_elem_of_here.
Qed.

Lemma before_in l i j : before l i j → i ∈ l ∧ j ∈ l.
Proof.
  intros Hb. split; apply (elem_of_sublist [i; j] l); auto.
  - apply list_elem_of_here.
  - apply list_elem_of_further, list_elem_of_here.
Qed.

Lemma before_cons_inv k m i j :
  before (k :: m) i j → (i = k ∧ j ∈ m) ∨ before m i j.
Proof.
  unfold before. rewrite sublist_cons_r.
  intros [?|(l' & [= -> <-] & H)]; [by right|left].
  by apply singleton_sublist_l in H.
Qed.

Lemma before_insert m1 k m2 i j :
  before (m1 ++ m2) i j → before (m1 ++ k :: m2) i j.
Proof.
  unfold before. intros H. etransitivity; [exact H|].
  apply sublist_app; [done|]. by apply sublist_cons.
Qed.

Lemma before_right m1 k m2 j : j ∈ m2 → before (m1 ++ k :: m2) k j.
Proof. intros Hj. apply before_alt. by exists m1, m2. Qed.

Lemma before_left m1 k m2 j : j ∈ m1 → before (m1 ++ k :: m2) j k.
Proof.
  intros (a & b & ->)%list_elem_of_split. apply before_alt.
  exists a, (b ++ k :: m2). split; [by rewrite <- app_assoc|].
  apply elem_of_app. right. apply list_elem_of_here.
Qed.

Lemma first_match {f : nat → bool} l i0 i :
  NoDup l → find f l = Some i0 → before l i i0 → f i = false.
Proof.
  intros Hnd (l1 & l2 & -> & Hi0 & Hl1)%find_Some_split Hb.
  apply NoDup_app in Hnd as (_ & Hdisj & [Hi2 _]%NoDup_cons).
  apply Hl1. unfold before in Hb. apply sublist_app_r in Hb as (a & b & Hab & Ha & Hb).
  destruct a as [|x [|y [|z a]]]; simpl in Hab; simplify_eq.
  - apply before_cons_inv in Hb as [[_ H]|H]; [done|].
    apply before_in in H as [_ H]. done.
  - by apply singleton_sublist_l.
  - apply (elem_of_sublist _ l1) with (x := x) in Ha; [done|].
    apply list_elem_of_here.
Qed.

Lemma after_first {f : nat → bool} l i k :
  find f l = Some i → k ∈ l → k ≠ i → f k = true → before l i k.
Proof.
  intros (l1 & l2 & -> & Hi & Hl1)%find_Some_split Hk Hne Hfk.
  apply elem_of_app in Hk as [Hk|Hk].
  - specialize (Hl1 k Hk). congruence.
  - apply elem_of_cons in Hk as [->|Hk]; [done|]. by apply before_right.
Qed.

(** ** Buffers that share an identity *)

Lemma pristine_deref c c' j :
  deref c' (Slot j) = deref c (Slot j) → pristine c j → pristine c' j.
Proof. unfold pristine. by intros ->. Qed.

Lemma pristine_fields c c' j :
  valid (deref c' (Slot j)) = valid (deref c (Slot j)) →
  data (deref c' (Slot j)) = data (deref c (Slot j)) →
  (lock (deref c (Slot j)) = None → lock (deref c' (Slot j)) = None) →
  pristine c j → pristine c' j.
Proof. unfold pristine. intros -> -> Hl (? & ? & ?). auto. Qed.

Lemma fresh_same c c' l :
  (∀ j, ident c' j = ident c j) →
  (∀ j, pristine c j → pristine c' j) →
  fresh_dups c l → fresh_dups c' l.
Proof.
  intros Hid Hl H i j Hb Heq. rewrite !Hid in *.
  destruct (H i j Hb Heq). auto.
Qed.

(** An assignment to the first buffer of an identity does not reach the
    later ones. *)
Lemma fresh_at_first c c' l d n i0 :
  NoDup l → fresh_dups c l → find (cached d n c) l = Some i0 →
  (∀ j, ident c' j = ident c j) →
  (∀ j, j ≠ i0 → pristine c j → pristine c' j) →
  fresh_dups c' l.
Proof.
  intros Hnd H Hf Hid Hp i j Hb Heq. rewrite !Hid in *.
  destruct (H i j Hb Heq) as [Hz Hl]. split; [done|].
  apply Hp; [|done].
  intros ->. pose proof (first_match _ _ _ Hnd Hf Hb) as Hc.
  apply cached_false in Hc. apply Hc. rewrite Heq. apply cached_true.
  by apply find_Some_split in Hf as (? & ? & _ & ? & _).
Qed.

(** A buffer rebound to a block that no buffer caches shares its identity
    with none. *)
Lemma fresh_rebound c c' l d n i0 :
  NoDup l → fresh_dups c l → find (cached d n c) l = None →
  ident c' i0 = (d, n) →
  (∀ j, j ≠ i0 → deref c' (Slot j) = deref c (Slot j)) →
  fresh_dups c' l.
Proof.
  intros Hnd H Hf Hid Hne i j Hb Heq.
  pose proof (before_ne _ _ _ Hnd Hb) as Hij.
  pose proof (before_in _ _ _ Hb) as [Hi Hj].
  rewrite find_None_all in Hf.
  destruct (decide (i = i0)) as [->|Hi0]; [|destruct (decide (j = i0)) as [->|Hj0]].
  - exfalso. rewrite Hid in Heq.
    unfold ident in Heq. rewrite Hne in Heq by congruence.
    specialize (Hf j Hj). apply cached_false in Hf. by apply Hf.
  - exfalso. rewrite Hid in Heq.
    unfold ident in Heq. rewrite Hne in Heq by congruence.
    specialize (Hf i Hi). apply cached_false in Hf. by apply Hf.
  - assert (Hidi : ident c' i = ident c i) by (unfold ident; by rewrite Hne).
    assert (Hidj : ident c' j = ident c j) by (unfold ident; by rewrite Hne).
    rewrite Hidi, Hidj in *.
    destruct (H i j Hb Heq) as [Hz Hp]. split; [done|].
    apply (pristine_deref c); auto.
Qed.

Lemma fresh_move c c' l1 k l2 p :
  fresh_dups c (l1 ++ k :: l2) →
  lock (deref c (Slot k)) = Some p →
  (∀ j, ident c' j = ident c j) →
  (∀ j, pristine c j → pristine c' j) →
  fresh_dups c' (k :: l1 ++ l2).
Proof.
  intros H Hheld Hid Hl i j Hb Heq. rewrite !Hid in *.
  apply before_cons_inv in Hb as [[-> Hj]|Hb].
  - apply elem_of_app in Hj as [Hj|Hj].
    + destruct (H j k (before_left _ _ _ _ Hj) (eq_sym Heq)) as [_ (_ & Hk & _)].
      congruence.
    + destruct (H k j (before_right _ _ _ _ Hj) Heq). auto.
  - destruct (H i j (before_insert _ _ _ _ _ Hb) Heq). auto.
Qed.

Lemma ident_released b c j : ident (released b c) j = ident c j.
Proof.
  unfold ident. rewrite !field_released by done. unfold uncounted.
  by rewrite !(field_assign dev), !(field_assign blockno).
Qed.

Lemma lock_released b c q :
  lock (deref c q) = None → lock (deref (released b c) q) = None.
Proof.
  intros Hq. rewrite field_released by done. unfold uncounted.
  rewrite (field_assign lock) by done. by apply lock_release_assign.
Qed.

Lemma pristine_released b c j : pristine c j → pristine (released b c) j.
Proof.
  apply pristine_fields; [| |apply lock_released];
    rewrite field_released by done; unfold uncounted.
  - by rewrite !(field_assign valid).
  - by rewrite !(field_assign data).
Qed.

Lemma pristine_count p f c j :
  (∀ x, valid (f x) = valid x) → (∀ x, data (f x) = data x) →
  (∀ x, lock (f x) = lock x) →
  pristine c j → pristine (assign p f c) j.
Proof.
  intros Hv Hd Hl. apply pristine_fields.
  - by rewrite (field_assign valid).
  - by rewrite (field_assign data).
  - by rewrite (field_assign lock).
Qed.

Lemma change_fresh N l c dec l' c' :
  inv N c l → change l c dec l' c' → fresh_dups c' l'.
Proof.
  intros [Hr H] Hc. pose proof (ring_NoDup _ _ _ Hr) as Hnd.
  destruct Hc as [i p d n Hf|i p d n Hf Hu|i d n Hf Hu|i blk d n Hf
                  |l1 i l2 p Hl Hheld|i|i].
  - apply (fresh_at_first c _ l d n i); auto.
    + intros j. unfold hit. by rewrite !ident_assign.
    + intros j Hj. apply pristine_deref. unfold hit.
      by rewrite !deref_assign_ne by congruence.
  - assert (Hin : in_range c (Slot i)).
    { apply (ring_in_range _ _ _ _ Hr).
      apply find_reverse_split in Hu as (l1 & l2 & -> & _).
      apply elem_of_app. right. apply list_elem_of_here. }
    apply (fresh_rebound c _ l d n i); auto.
    + by apply ident_rebind_eq.
    + intros j Hj. apply deref_rebind_lock_ne. congruence.
  - assert (Hin : in_range c (Slot i)).
    { apply (ring_in_range _ _ _ _ Hr).
      apply find_reverse_split in Hu as (l1 & l2 & -> & _).
      apply elem_of_app. right. apply list_elem_of_here. }
    apply (fresh_rebound c _ l d n i); auto.
    + unfold ident. by rewrite deref_rebind_eq.
    + intros j Hj. apply deref_rebind_ne. congruence.
  - apply (fresh_at_first c _ l d n i); auto.
    + intros j. by rewrite !ident_assign.
    + intros j Hj. apply pristine_deref.
      by rewrite !deref_assign_ne by congruence.
  - destruct (refcnt (deref c (Slot i)) - 1 =? 0).
    + subst l. apply (fresh_move c _ l1 i l2 p); auto.
      * apply ident_released.
      * intros j. apply pristine_released.
    + revert H. apply fresh_same; [apply ident_released|].
      intros j. apply pristine_released.
  - revert H. apply fresh_same; intros j; unfold hit.
    + by rewrite !ident_assign.
    + by apply pristine_count.
  - revert H. apply fresh_same; intros j.
    + by rewrite !ident_assign.
    + by apply pristine_count.
Qed.

Lemma change_inv N l c dec l' c' :
  inv N c l → change l c dec l' c' → inv N c' l'.
Proof.
  intros Hinv Hc. split.
  - eapply change_ring; [apply Hinv|done].
  - by eapply change_fresh.
Qed.

Lemma effect_inv N l c dec l' c' :
  inv N c l → effect l c dec l' c' → inv N c' l'.
Proof.
  intros Hinv [|dec' l1 c1 H1|c1 l1 c2 H1 H2]; [done|by eapply change_inv|].
  eapply change_inv; [|exact H2]. by eapply change_inv.
Qed.

Lemma boot_inv N dsk : inv N (cache (boot N dsk)) (reverse (seq 0 N)).
Proof.
  split; simpl.
  - apply binit_ring, length_bcache0.
  - intros i j _ _. unfold ident, pristine.
    rewrite (binit_field dev), (binit_field blockno) by done.
    rewrite (binit_field valid), (binit_field data) by done.
    rewrite deref_bcache0.
    split; [done|]. split; [done|]. split; [|done].
    apply binit_lock. by rewrite deref_bcache0.
Qed.

Lemma step_inv G N w w' l :
  inv N (cache w) l → step G N w w' → ∃ l', inv N (cache w') l'.
Proof.
  intros Hinv (o & Hok & _ & Hex).
  destruct (exec_effect N l o w w' (proj1 Hinv) Hok Hex) as (dec & l' & He & _).
  exists l'. by eapply effect_inv.
Qed.

Lemma reachable_inv G N w : reachable_by G N w → ∃ l, inv N (cache w) l.
Proof.
  induction 1 as [dsk|w w' _ [l IH] Hs].
  - eexists. apply boot_inv.
  - by eapply step_inv.
Qed.

Lemma reachable_all_inv G N w : reachable_all G N w → ∃ l, inv N (cache w) l.
Proof.
  induction 1 as [dsk|w o _ [l IH] Hok _].
  - eexists. apply boot_inv.
  - destruct (exec_final_effect N l o w (proj1 IH) Hok) as (dec & l' & He & _).
    exists l'. by eapply effect_inv.
Qed.

(** The worlds reached by returning calls are among those. *)
Lemma reachable_by_all G N w : reachable_by G N w → reachable_all G N w.
Proof.
  induction 1 as [dsk|w w' _ IH (o & Hok & HG & Hex)].
  - apply reach_all_boot.
  - replace w' with (final (exec (S N) o w)) by by rewrite Hex.
    apply reach_all_step; auto. by rewrite Hex.
Qed.

(** The links of a well-formed list are mutually inverse. *)

Lemma walk_inverse r c x l y :
  walk r c x l y → walk (opp r) c y (reverse l) x →
  ∀ s, s ∈ x :: (Slot <$> l) →
       link (opp r) (deref c (link r (deref c s))) = s.
Proof.
  revert x. induction l as [|i l IH]; intros x; simpl.
  - intros <- Hb s Hs%list_elem_of_singleton. by subst.
  - intros [Hx Hw]. rewrite reverse_cons, walk_snoc. intros [Hb Hi] s Hs.
    apply elem_of_cons in Hs as [->|Hs].
    + by rewrite Hx.
    + by apply (IH (Slot i)).
Qed.

Lemma ring_inverse N c l x :
  ring N c l → in_range c x →
  prev (deref c (next (deref c x))) = x ∧ next (deref c (prev (deref c x))) = x.
Proof.
  intros Hr Hx. assert (Hin : x ∈ Head :: (Slot <$> l)).
  { destruct x as [| |i]; simpl in Hx; [done|apply list_elem_of_here|].
    apply list_elem_of_further, list_elem_of_fmap_2, (ring_elem _ _ _ _ Hr).
    by rewrite <- (proj1 Hr). }
  destruct Hr as (_ & _ & Hfw & Hbw). split.
  - by apply (walk_inverse Fwd c Head l Head).
  - apply (walk_inverse Bwd c Head (reverse l) Head); [done| |].
    + by rewrite reverse_involutive.
    + apply elem_of_cons in Hin as [->|Hin]; [apply list_elem_of_here|].
      apply list_elem_of_further. rewrite <- (reverse_involutive l) in Hin.
      rewrite fmap_reverse in Hin |- *.
      rewrite fmap_reverse, reverse_involutive in Hin.
      by apply elem_of_reverse.
Qed.

(** Which calls assign links. *)
Lemma links_frame :
  (∀ fuel p d n w, links (cache (final (bget fuel p d n w))) = links (cache w)) ∧
  (∀ b w, links (cache (final (bpin b w))) = links (cache w)) ∧
  (∀ b w, links (cache (final (bunpin b w))) = links (cache w)) ∧
  (∀ fuel p d n w, links (cache (final (bread fuel p d n w))) = links (cache w)) ∧
  (∀ p b w, links (cache (final (bwrite p b w))) = links (cache w)) ∧
  (∀ p b w, links (cache (final (brelse p b w))) = links (cache w) ∨
            (lock (deref (cache w) b) = Some p ∧
             refcnt (deref (cache w) b) - 1 = 0)).
Proof.
  repeat split.
  - intros. apply bget_frame.
  - intros. simpl. by rewrite links_assign.
  - intros. simpl. by rewrite links_assign.
  - intros. rewrite bread_cases.
    pose proof (bget_frame fuel p d n w) as (_ & _ & H).
    destruct (bget fuel p d n w) as [b w1| | |]; try done.
    simpl in *. destruct (valid _); [done|].
    unfold filled; simpl. by rewrite links_fill.
  - intros. rewrite bwrite_cases. destruct (bool_decide _); [|done].
    unfold virtio_disk_rw. done.
  - intros. rewrite brelse_cases.
    destruct (bool_decide _) eqn:E; [|by left].
    apply bool_decide_eq_true in E.
    destruct (decide (refcnt (deref (cache w) b) - 1 = 0)) as [Hz|Hz]; [by right|].
    left. simpl. rewrite released_stay; [apply links_uncounted| |done].
    by eapply held_in_range.
Qed.


(** The links determine the walks. *)
Lemma links_deref c c' x :
  links c' = links c →
  prev (deref c' x) = prev (deref c x) ∧ next (deref c' x) = next (deref c x).
Proof.
  unfold links. rewrite !fmap_cons. intros [= Hp Hn Hl].
  destruct x as [| |i]; [done|done|]. unfold deref.
  assert (Hi : ((fun x => (prev x, next x)) <$> bc_buf c') !! i =
               ((fun x => (prev x, next x)) <$> bc_buf c) !! i) by by rewrite Hl.
  rewrite !list_lookup_fmap in Hi.
  destruct (bc_buf c' !! i), (bc_buf c !! i); simpl in *; by simplify_eq.
Qed.

Lemma links_length c c' :
  links c' = links c → length (bc_buf c') = length (bc_buf c).
Proof.
  unfold links. rewrite !fmap_cons. intros [= _ _ Hl].
  apply (f_equal length) in Hl. by rewrite !length_fmap in Hl.
Qed.

Lemma ring_links N c c' l : links c' = links c → ring N c l → ring N c' l.
Proof.
  intros Hl (Hlen & Hp & Hfw & Hbw). split; [by rewrite (links_length c c')|].
  split; [done|].
  split; [revert Hfw|revert Hbw];
    (apply walk_ext; [|intros k _]); simpl; by apply links_deref.
Qed.

(** Every call leaves a well-formed list well formed, however it ends. *)
Lemma exec_final_ring N l o w :
  ring N (cache w) l → op_ok N o →
  ∃ l', l' ≡ₚ l ∧ ring N (cache (final (exec (S N) o w))) l'.
Proof.
  intros Hr Hok.
  destruct links_frame as (Hget & Hpin & Hunpin & Hread & Hwrite & _).
  destruct o as [p d n|p d n|p b|p b|b|b]; simpl;
    rewrite ?final_bind_ret;
    try (exists l; split; [done|]; eapply ring_links; [|exact Hr]; auto; fail);
    try (exists l; split; [done|]; by apply ring_assign).
  rewrite brelse_cases. destruct (bool_decide _) eqn:E; [|by exists l].
  apply bool_decide_eq_true in E.
  destruct b as [| |i]; try done. simpl in Hok.
  apply (ring_elem _ _ _ _ Hr) in Hok.
  apply list_elem_of_split in Hok as (l1 & l2 & Hl).
  eexists. split; [|eapply change_ring; [exact Hr|by eapply ch_release]].
  destruct (_ =? 0); [|done]. subst l. by rewrite Permutation_middle.
Qed.

Lemma before_total l i j : i ∈ l → j ∈ l → i ≠ j → before l i j ∨ before l j i.
Proof.
  intros (l1 & l2 & ->)%list_elem_of_split Hj Hne.
  apply elem_of_app in Hj as [Hj|Hj].
  - right. by apply before_left.
  - apply elem_of_cons in Hj as [->|Hj]; [done|]. left. by apply before_right.
Qed.

(** ** Counts *)

Lemma deref_assign_cases p f c q :
  deref (assign p f c) q = deref c q ∨
  (p = q ∧ in_range c p ∧ deref (assign p f c) q = f (deref c p)).
Proof.
  destruct (decide (p = q)) as [<-|Hne]; [|left; by apply deref_assign_ne].
  destruct (decide (in_range c p)).
  - right. split; [done|]. split; [done|]. by apply deref_assign_eq.
  - left. by rewrite assign_out_of_range.
Qed.

Lemma rebind_counts c d n i l q :
  find (unused c) (reverse l) = Some i →
  refcnt (deref c q) ≤ refcnt (deref (rebind d n (Slot i) c) q) ∨
  (refcnt (deref c q) = 0 ∧ refcnt (deref (rebind d n (Slot i) c) q) = 1).
Proof.
  intros Hu. destruct (decide (in_range c (Slot i))) as [Hin|Hout].
  - destruct (decide (Slot i = q)) as [<-|Hne].
    + right. split; [|by rewrite deref_rebind_eq].
      apply unused_true. by apply find_reverse_split in Hu as (? & ? & _ & ? & _).
    + left. by rewrite deref_rebind_ne.
  - left. unfold rebind. by rewrite !(assign_out_of_range _ _ c).
Qed.

Lemma change_counts l c dec l' c' q :
  change l c dec l' c' →
  match dec with
  | None => refcnt (deref c q) ≤ refcnt (deref c' q) ∨
            (refcnt (deref c q) = 0 ∧ refcnt (deref c' q) = 1)
  | Some i => refcnt (deref c' q) = refcnt (deref c q) ∨
              (q = Slot i ∧ refcnt (deref c' q) = refcnt (deref c q) - 1)
  end.
Proof.
  intros [i p d n|i p d n Hf Hu|i d n Hf Hu|i blk d n|l1 i l2 p Hl Hheld|i|i].
  - rewrite (field_assign refcnt) by done. unfold hit.
    destruct (deref_assign_cases (Slot i)
      (fun x => set_refcnt (refcnt x + 1) x) c q) as [->|(<- & _ & ->)];
      simpl; left; lia.
  - rewrite (field_assign refcnt) by done. by apply (rebind_counts c d n i l).
  - by apply (rebind_counts c d n i l).
  - left. by rewrite !(field_assign refcnt).
  - rewrite field_released by done.
    destruct (decide (Slot i = q)) as [<-|Hne].
    + right. split; [done|].
      rewrite deref_uncounted_eq; [done|]. by eapply held_in_range.
    + left. by rewrite deref_uncounted_ne.
  - unfold hit.
    destruct (deref_assign_cases (Slot i)
      (fun x => set_refcnt (refcnt x + 1) x) c q) as [->|(<- & _ & ->)];
      simpl; left; lia.
  - destruct (deref_assign_cases (Slot i)
      (fun x => set_refcnt (refcnt x - 1) x) c q) as [->|(<- & _ & ->)];
      simpl; [by left|by right].
Qed.

(** ** The first buffer of an identity stays the first while it is counted *)

Lemma first_rebound N l c c' d n i d' n' k :
  ring N c l → find (cached d n c) l = Some i →
  0 < refcnt (deref c (Slot i)) →
  find (cached d' n' c) l = None →
  find (unused c) (reverse l) = Some k →
  (in_range c (Slot k) → ident c' k = (d', n')) →
  (∀ x, x ≠ k → deref c' (Slot x) = deref c (Slot x)) →
  find (cached d n c') l = Some i.
Proof.
  intros Hr Hfind Hpos Hf Hu Hid Hne.
  assert (Hki : k ≠ i).
  { intros ->. apply find_reverse_split in Hu as (? & ? & _ & Hu & _).
    apply unused_true in Hu. lia. }
  assert (Hkin : in_range c (Slot k)).
  { apply (ring_in_range _ _ _ _ Hr).
    apply find_reverse_split in Hu as (l1 & l2 & -> & _).
    apply elem_of_app. right. apply list_elem_of_here. }
  assert (Hdn : (d', n') ≠ (d, n)).
  { intros [= -> ->]. congruence. }
  apply find_Some_split in Hfind as (l1 & l2 & -> & Hi & Hl1).
  apply find_Some_split. exists l1, l2. split; [done|]. split.
  - rewrite <- Hi. apply cached_ident. unfold ident.
    by rewrite Hne by congruence.
  - intros x Hx. destruct (decide (x = k)) as [->|Hxk].
    + apply cached_false. by rewrite Hid.
    + rewrite <- (Hl1 x Hx). apply cached_ident. unfold ident.
      by rewrite Hne by congruence.
Qed.

Lemma change_first N l c dec l' c' d n i :
  inv N c l → find (cached d n c) l = Some i →
  0 < refcnt (deref c (Slot i)) →
  change l c dec l' c' →
  0 < refcnt (deref c' (Slot i)) →
  find (cached d n c') l' = Some i.
Proof.
  intros [Hr Hfresh] Hfind Hpos Hc Hpos'.
  pose proof (ring_NoDup _ _ _ Hr) as Hnd.
  destruct Hc as [k p d' n' Hf Hl|k p d' n' Hf Hu Hl|k d' n' Hf Hu|k blk d' n' Hf
                  |l1 k l2 p Hl Hheld|k Hk|k Hk].
  - rewrite <- Hfind. apply find_ext. intros x _. apply cached_ident.
    unfold hit. by rewrite !ident_assign.
  - apply (first_rebound N l c _ d n i d' n' k); auto.
    + intros Hin. by apply ident_rebind_eq.
    + intros x Hx. apply deref_rebind_lock_ne. congruence.
  - apply (first_rebound N l c _ d n i d' n' k); auto.
    + intros Hin. unfold ident. by rewrite deref_rebind_eq.
    + intros x Hx. apply deref_rebind_ne. congruence.
  - rewrite <- Hfind. apply find_ext. intros x _. apply cached_ident.
    by rewrite !ident_assign.
  - assert (Hkin : in_range c (Slot k)) by by eapply held_in_range.
    assert (Hext : ∀ m, find (cached d n (released (Slot k) c)) m =
                        find (cached d n c) m).
    { intros m. apply find_ext. intros x _. apply cached_ident, ident_released. }
    rewrite Hext.
    destruct (Z.eqb_spec (refcnt (deref c (Slot k)) - 1) 0) as [Hz|Hz]; [|done].
    assert (Hki : k ≠ i).
    { intros ->. rewrite field_released in Hpos' by done.
      rewrite deref_uncounted_eq in Hpos' by done. simpl in Hpos'. lia. }
    assert (Hck : cached d n c k = false).
    { destruct (cached d n c k) eqn:E; [exfalso|done].
      assert (Hb : before l i k).
      { apply (after_first l i k Hfind); auto. subst l.
        apply elem_of_app. right. apply list_elem_of_here. }
      destruct (Hfresh i k Hb) as [_ (_ & Hfree & _)]; [|congruence].
      apply cached_true in E. rewrite E. apply cached_true.
      by apply find_Some_split in Hfind as (? & ? & _ & ? & _). }
    subst l. simpl. rewrite Hck. by rewrite <- (find_drop _ l1 k l2).
  - rewrite <- Hfind. apply find_ext. intros x _. apply cached_ident.
    unfold hit. by rewrite !ident_assign.
  - rewrite <- Hfind. apply find_ext. intros x _. apply cached_ident.
    by rewrite !ident_assign.
Qed.

Lemma effect_pinned N d n i l c dec l' c' :
  inv N c l → find (cached d n c) l = Some i →
  0 < refcnt (deref c (Slot i)) →
  effect l c dec l' c' →
  0 < refcnt (deref c' (Slot i)) →
  inv N c' l' ∧ find (cached d n c') l' = Some i.
Proof.
  intros Hinv Hfind Hpos He Hpos'.
  split; [by eapply effect_inv|].
  destruct He as [|dec l1 c1 H1|c1 l1 c2 H1 H2]; [done|by eapply change_first|].
  assert (Hpos1 : 0 < refcnt (deref c1 (Slot i))).
  { pose proof (change_counts _ _ _ _ _ (Slot i) H1) as Hc. simpl in Hc. lia. }
  eapply (change_first N l c1); [by eapply change_inv| |done|exact H2|done].
  by eapply change_first.
Qed.

Lemma step_pinned N d n i w w' :
  pinned_first N d n i w → step (keeps (Slot i)) N w w' → pinned_first N d n i w'.
Proof.
  intros (l & Hinv & Hfind & Hpos) (o & Hok & Hkeep & Hex).
  destruct (exec_effect N l o w w' (proj1 Hinv) Hok Hex) as (dec & l' & He & _).
  exists l'. unfold keeps in Hkeep.
  destruct (effect_pinned N d n i _ _ _ _ _ Hinv Hfind Hpos He Hkeep). auto.
Qed.

Lemma rtc_pinned N d n i w w' :
  pinned_first N d n i w → rtc (step (keeps (Slot i)) N) w w' →
  pinned_first N d n i w'.
Proof. intros Hp Hrtc. induction Hrtc; eauto using step_pinned. Qed.

Lemma bget_pinned N l fuel p d n w b w1 :
  inv N (cache w) l → (N < fuel)%nat →
  bget fuel p d n w = Ret b w1 →
  ∃ i, b = Slot i ∧ inv N (cache w1) l ∧ find (cached d n (cache w1)) l = Some i.
Proof.
  intros Hinv Hf Hb. pose proof (proj1 Hinv) as Hr.
  pose proof (ring_NoDup _ _ _ Hr) as Hnd.
  destruct (bget_Ret _ _ _ _ _ _ _ _ _ Hr Hf Hb)
    as (i & -> & Hi & _ & _ & Hl & [(Hfind & Hc)|(Hfind & Hu & Hc)]);
    exists i; (split; [done|]); rewrite Hc.
  - split; [eapply change_inv; [exact Hinv|by apply (ch_hit _ _ i p d n)]|].
    rewrite <- Hfind. apply find_ext. intros x _. apply cached_ident.
    unfold hit. by rewrite !ident_assign.
  - split; [eapply change_inv; [exact Hinv|by apply (ch_rebind _ _ i p d n)]|].
    assert (Hin : in_range (cache w) (Slot i)) by by eapply ring_in_range.
    apply list_elem_of_split in Hi as (l1 & l2 & ->).
    apply find_Some_split. exists l1, l2. split; [done|]. split.
    + apply cached_true. by rewrite ident_rebind_eq.
    + intros x Hx. rewrite find_None_all in Hfind.
      rewrite <- (Hfind x) by (apply elem_of_app; auto).
      apply cached_ident. unfold ident.
      rewrite deref_rebind_lock_ne; [done|]. intros [= ->].
      apply NoDup_app in Hnd as (_ & Hd & _).
      apply (Hd x Hx), list_elem_of_here.
Qed.

Lemma effect_nonneg l c dec l' c' :
  (∀ q, 0 ≤ refcnt (deref c q)) →
  (∀ i, dec = Some i → 0 < refcnt (deref c (Slot i))) →
  effect l c dec l' c' →
  ∀ q, 0 ≤ refcnt (deref c' q).
Proof.
  intros Hc Hdec He q. destruct He as [|dec' l1 c1 H1|c1 l1 c2 H1 H2]; [done| |].
  - pose proof (change_counts _ _ _ _ _ q H1) as Hq. specialize (Hc q).
    destruct dec' as [i|]; [|lia].
    destruct Hq as [->|[-> ->]]; [done|]. specialize (Hdec i eq_refl). lia.
  - pose proof (change_counts _ _ _ _ _ q H1) as Hq1.
    pose proof (change_counts _ _ _ _ _ q H2) as Hq2.
    specialize (Hc q). simpl in *. lia.
Qed.

Lemma counted_nonneg N w :
  reachable_by counted N w → ∀ q, 0 ≤ refcnt (deref (cache w) q).
Proof.
  intros Hreach. pose proof Hreach as Hinv.
  induction Hreach as [dsk|w w' Hw IH (o & Hok & Hg & Hex)]; intros q.
  - simpl. rewrite binit_field by done. by rewrite deref_bcache0.
  - destruct (reachable_inv _ _ _ Hw) as (l & Hr & _).
    destruct (exec_effect N l o w w' Hr Hok Hex) as (dec & l' & He & Hdec).
    revert q. eapply effect_nonneg; [by apply IH| |exact He].
    intros i ->. specialize (Hdec i eq_refl).
    destruct o; simpl in Hdec; try done; by subst.
Qed.

Lemma counted_all_nonneg N w :
  reachable_all counted N w → ∀ q, 0 ≤ refcnt (deref (cache w) q).
Proof.
  intros Hreach.
  induction Hreach as [dsk|w o Hw IH Hok Hg]; intros q.
  - simpl. rewrite binit_field by done. by rewrite deref_bcache0.
  - destruct (reachable_all_inv _ _ _ Hw) as (l & Hr & _).
    destruct (exec_final_effect N l o w Hr Hok) as (dec & l' & He & Hdec).
    revert q. eapply effect_nonneg; [by apply IH| |exact He].
    intros i ->. specialize (Hdec i eq_refl).
    destruct o; simpl in Hdec; try done; by subst.
Qed.

(** A call lowers a count only by one, and only the count that it
    releases. *)
Lemma effect_lowers l c dec l' c' q :
  (∀ i, dec = Some i → 0 < refcnt (deref c (Slot i))) →
  effect l c dec l' c' →
  refcnt (deref c q) ≤ refcnt (deref c' q) ∨
  (0 < refcnt (deref c q) ∧ refcnt (deref c' q) = refcnt (deref c q) - 1).
Proof.
  intros Hdec He. destruct He as [|dec' l1 c1 H1|c1 l1 c2 H1 H2]; [left; lia| |].
  - pose proof (change_counts _ _ _ _ _ q H1) as Hq.
    destruct dec' as [i|]; [|left; lia].
    destruct Hq as [->|[-> Hq]]; [left; lia|].
    right. split; [by apply Hdec|done].
  - pose proof (change_counts _ _ _ _ _ q H1) as Hq1.
    pose proof (change_counts _ _ _ _ _ q H2) as Hq2.
    simpl in *. left. lia.
Qed.

Lemma counted_lowers N w o q :
  reachable_all counted N w → op_ok N o →
  counted o w (final (exec (S N) o w)) →
  refcnt (deref (cache w) q) ≤ refcnt (deref (cache (final (exec (S N) o w))) q) ∨
  (0 < refcnt (deref (cache w) q) ∧
   refcnt (deref (cache (final (exec (S N) o w))) q) = refcnt (deref (cache w) q) - 1).
Proof.
  intros Hw Hok Hg.
  destruct (reachable_all_inv _ _ _ Hw) as (l & Hr & _).
  destruct (exec_final_effect N l o w Hr Hok) as (dec & l' & He & Hdec).
  eapply effect_lowers; [|exact He].
  intros i ->. specialize (Hdec i eq_refl).
  destruct o; simpl in Hdec; try done; by subst.
Qed.

(** On a list that is not exhausted [bget] chooses a buffer, and returns
    it or sleeps on its lock. *)
Lemma bget_chooses N l fuel p d n w :
  ring N (cache w) l → (N < fuel)%nat →
  (∃ j, (j < N)%nat ∧
        (ident (cache w) j = (d, n) ∨ refcnt (deref (cache w) (Slot j)) = 0)) →
  ∃ i, (i < N)%nat ∧
    match lock (deref (cache w) (Slot i)) with
    | None => ∃ w1, bget fuel p d n w = Ret (Slot i) w1
    | Some _ => ∃ w1, bget fuel p d n w = Sleeping (Slot i) w1
    end.
Proof.
  intros Hr Hf (j & Hj & Hav). rewrite (bget_ring N (cache w) l) by done.
  destruct (find (cached d n (cache w)) l) as [i|] eqn:E1.
  - exists i. split.
    { apply find_Some_split in E1 as (l1 & l2 & -> & _).
      apply (ring_elem _ _ _ _ Hr), elem_of_app. right. apply list_elem_of_here. }
    rewrite locked_return_cases, cache_with_cache.
    replace (lock (deref (hit (Slot i) (cache w)) (Slot i)))
      with (lock (deref (cache w) (Slot i)))
      by (unfold hit; by rewrite (field_assign lock)).
    destruct (lock (deref (cache w) (Slot i))); eauto.
  - destruct (find (unused (cache w)) (reverse l)) as [i|] eqn:E2.
    + exists i. split.
      { apply find_reverse_split in E2 as (l1 & l2 & -> & _).
        apply (ring_elem _ _ _ _ Hr), elem_of_app. right. apply list_elem_of_here. }
      rewrite locked_return_cases, cache_with_cache.
      replace (lock (deref (rebind d n (Slot i) (cache w)) (Slot i)))
        with (lock (deref (cache w) (Slot i)))
        by (unfold rebind; by rewrite !(field_assign lock)).
      destruct (lock (deref (cache w) (Slot i))); eauto.
    + exfalso. rewrite find_None_all in E1, E2.
      apply (ring_elem _ _ _ _ Hr) in Hj. destruct Hav as [Hid|Hz].
      * specialize (E1 j Hj). apply cached_false in E1. by apply E1.
      * assert (Hj' : j ∈ reverse l) by by rewrite elem_of_reverse.
        specialize (E2 j Hj'). apply unused_false in E2. by apply E2.
Qed.

(** A second [bget] for the block of a counted buffer. *)
Lemma bget_again N fuel q d n i w :
  pinned_first N d n i w → (N < fuel)%nat →
  in_range (cache w) (Slot i) ∧
  bget fuel q d n w = locked_return q (Slot i) (with_cache (hit (Slot i)) w).
Proof.
  intros (l & [Hr _] & Hfind & _) Hf. split.
  - apply (ring_in_range _ _ _ _ Hr).
    apply find_Some_split in Hfind as (l1 & l2 & -> & _).
    apply elem_of_app. right. apply list_elem_of_here.
  - by rewrite (bget_ring N (cache w) l), Hfind.
Qed.

Lemma locked_hit_fields q b w :
  in_range (cache w) b →
  let w3 := final (locked_return q b (with_cache (hit b) w)) in
  disk w3 = disk w ∧ io w3 = io w ∧
  refcnt (deref (cache w3) b) = refcnt (deref (cache w) b) + 1 ∧
  (∀ x, x ≠ b → refcnt (deref (cache w3) x) = refcnt (deref (cache w) x)) ∧
  (∀ x, dev (deref (cache w3) x) = dev (deref (cache w) x) ∧
        blockno (deref (cache w3) x) = blockno (deref (cache w) x) ∧
        valid (deref (cache w3) x) = valid (deref (cache w) x) ∧
        data (deref (cache w3) x) = data (deref (cache w) x)) ∧
  (lock (deref (cache w) b) = None →
   locked_return q b (with_cache (hit b) w) = Ret b w3).
Proof.
  intros Hin.
  assert (E : locked_return q b (with_cache (hit b) w) =
              match lock (deref (cache w) b) with
              | None => Ret b (with_cache (assign b (set_lock (Some q)))
                                 (with_cache (hit b) w))
              | Some _ => Sleeping b (with_cache (hit b) w)
              end).
  { rewrite locked_return_cases, cache_with_cache.
    unfold hit at 1. by rewrite (field_assign lock). }
  rewrite E. clear E.
  destruct (lock (deref (cache w) b)); cbn [final with_cache cache disk io];
    (split; [done|]); (split; [done|]);
    rewrite ?(field_assign refcnt) by done;
    (split; [by rewrite deref_hit_eq|]);
    (split; [intros x Hx; rewrite ?(field_assign refcnt) by done;
             by rewrite deref_hit_ne|]);
    (split; [|done]); intros x; unfold hit;
    by rewrite !(field_assign dev), !(field_assign blockno),
         !(field_assign valid), !(field_assign data).
Qed.

(** ** What the loops find, on any list *)

Lemma scan_unused_found fuel c x b :
  scan_unused fuel c x = Found b → refcnt (deref c b) = 0.
Proof.
  revert x. induction fuel as [|fuel IH]; intros x; simpl; [done|].
  destruct (decide (x = Head)); [done|].
  destruct (refcnt (deref c x) =? 0) eqn:E; [|apply IH].
  intros [= <-]. by apply Z.eqb_eq.
Qed.

Lemma scan_cached_found fuel d n c x b :
  scan_cached fuel d n c x = Found b →
  dev (deref c b) = d ∧ blockno (deref c b) = n.
Proof.
  revert x. induction fuel as [|fuel IH]; intros x; simpl; [done|].
  destruct (decide (x = Head)); [done|].
  destruct ((dev (deref c x) =? d) && (blockno (deref c x) =? n)) eqn:E; [|apply IH].
  intros [= <-]. apply andb_true_iff in E as [?%Z.eqb_eq ?%Z.eqb_eq]. done.
Qed.

Lemma same_content_refl c q : same_content c c q.
Proof. by repeat split. Qed.

Lemma same_content_trans c1 c2 c3 q :
  same_content c1 c2 q → same_content c2 c3 q → same_content c1 c3 q.
Proof. intros (?&?&?&?) (?&?&?&?). repeat split; congruence. Qed.

Lemma same_content_assign p f c q :
  (∀ x, dev (f x) = dev x) → (∀ x, blockno (f x) = blockno x) →
  (∀ x, valid (f x) = valid x) → (∀ x, data (f x) = data x) →
  same_content c (assign p f c) q.
Proof.
  intros. unfold same_content.
  by rewrite (field_assign dev), (field_assign blockno),
    (field_assign valid), (field_assign data).
Qed.

Lemma same_content_ne p f c q : p ≠ q → same_content c (assign p f c) q.
Proof. intros Hne. unfold same_content. by rewrite deref_assign_ne. Qed.

Lemma same_content_released b c q : same_content c (released b c) q.
Proof.
  unfold same_content. rewrite !field_released by done. unfold uncounted.
  by rewrite !(field_assign dev), !(field_assign blockno),
    !(field_assign valid), !(field_assign data).
Qed.

(** [bget] assigns the identity and validity of a buffer only when it found
    its count at zero. *)
Lemma bget_stable fuel p d n w q :
  refcnt (deref (cache w) q) ≠ 0 →
  same_content (cache w) (cache (final (bget fuel p d n w))) q.
Proof.
  intros Hq. rewrite bget_unfold.
  destruct (scan_cached _ _ _ _ _) as [b| |]; [| |apply same_content_refl].
  - rewrite locked_return_cases. destruct (lock _); simpl; unfold hit;
      repeat (eapply same_content_trans; [|by apply same_content_assign]);
      apply same_content_refl.
  - destruct (scan_unused _ _ _) as [b| |] eqn:E; try apply same_content_refl.
    apply scan_unused_found in E.
    assert (Hne : b ≠ q) by (intros ->; done).
    rewrite locked_return_cases. destruct (lock _); simpl; unfold rebind;
      repeat (eapply same_content_trans; [|by apply same_content_ne]);
      apply same_content_refl.
Qed.

(** No call, however it ends, changes the identity, the validity or the
    payload of a buffer that is counted and valid. *)
Lemma exec_stable fuel o w q :
  refcnt (deref (cache w) q) ≠ 0 →
  valid (deref (cache w) q) = true →
  same_content (cache w) (cache (final (exec fuel o w))) q.
Proof.
  intros Hq Hv. destruct o as [p d n|p d n|p b|p b|b|b]; simpl.
  - rewrite final_bind_ret. by apply bget_stable.
  - rewrite final_bind_ret, bread_cases.
    pose proof (bget_stable fuel p d n w q Hq) as Hs.
    destruct (bget fuel p d n w) as [b w1| | |]; try done. simpl in *.
    destruct (valid (deref (cache w1) b)) eqn:Eb; [done|].
    assert (Hne : b ≠ q).
    { intros ->. destruct Hs as (_ & _ & Hv1 & _). congruence. }
    eapply same_content_trans; [exact Hs|]. unfold filled; simpl.
    eapply same_content_trans; by apply same_content_ne.
  - rewrite bwrite_cases. destruct (bool_decide _); apply same_content_refl.
  - rewrite brelse_cases. destruct (bool_decide _); [|apply same_content_refl].
    apply same_content_released.
  - by apply same_content_assign.
  - by apply same_content_assign.
Qed.

Lemma rtc_stable N i w w' :
  0 < refcnt (deref (cache w) (Slot i)) →
  valid (deref (cache w) (Slot i)) = true →
  rtc (step (keeps (Slot i)) N) w w' →
  same_content (cache w) (cache w') (Slot i).
Proof.
  intros Hpos Hv Hrtc. induction Hrtc as [w|w w1 w' (o & _ & Hk & Hex) _ IH].
  - apply same_content_refl.
  - pose proof (exec_stable (S N) o w (Slot i)) as Hs.
    rewrite Hex in Hs. simpl in Hs.
    assert (Hs1 : same_content (cache w) (cache w1) (Slot i)) by (apply Hs; [lia|done]).
    eapply same_content_trans; [exact Hs1|]. apply IH; [exact Hk|].
    destruct Hs1 as (_ & _ & -> & _). done.
Qed.

(** ** Outcomes of [bget] and [bread] on a well-formed list *)

Lemma bget_outcomes N l fuel p d n w :
  ring N (cache w) l → (N < fuel)%nat →
  match bget fuel p d n w with
  | Ret b w1 =>
      lock (deref (cache w) b) = None ∧
      lock (deref (cache w1) b) = Some p ∧
      (∀ x, x ≠ b → deref (cache w1) x = deref (cache w) x)
  | Sleeping b w1 =>
      (∃ p', lock (deref (cache w) b) = Some p') ∧
      io w1 = io w ∧
      lock (deref (cache w1) b) = lock (deref (cache w) b) ∧
      (refcnt (deref (cache w1) b) = refcnt (deref (cache w) b) + 1 ∨
       refcnt (deref (cache w1) b) = 1) ∧
      (∀ x, x ≠ b → deref (cache w1) x = deref (cache w) x)
  | Panic m w1 => m = "bget:no buffers"%string ∧ w1 = w
  | Looping _ => False
  end.
Proof.
  intros Hr Hf. rewrite (bget_ring N (cache w) l) by done.
  destruct (find (cached d n (cache w)) l) as [i|] eqn:E1.
  - assert (Hin : in_range (cache w) (Slot i)).
    { apply (ring_in_range _ _ _ _ Hr).
      apply find_Some_split in E1 as (l1 & l2 & -> & _).
      apply elem_of_app. right. apply list_elem_of_here. }
    rewrite locked_return_cases, cache_with_cache.
    unfold hit at 1. rewrite (field_assign lock) by done.
    destruct (lock (deref (cache w) (Slot i))) as [p'|] eqn:El.
    + split; [by exists p'|]. split; [done|]. rewrite cache_with_cache.
      split; [unfold hit; by rewrite (field_assign lock)|].
      split; [left; by rewrite deref_hit_eq|].
      intros x Hx. by rewrite deref_hit_ne.
    + split; [done|]. rewrite !cache_with_cache. split.
      * by rewrite deref_assign_eq by (unfold hit; by rewrite in_range_assign).
      * intros x Hx. by rewrite deref_assign_ne, deref_hit_ne.
  - destruct (find (unused (cache w)) (reverse l)) as [i|] eqn:E2; [|done].
    assert (Hin : in_range (cache w) (Slot i)).
    { apply (ring_in_range _ _ _ _ Hr).
      apply find_reverse_split in E2 as (l1 & l2 & -> & _).
      apply elem_of_app. right. apply list_elem_of_here. }
    rewrite locked_return_cases, cache_with_cache.
    unfold rebind at 1. rewrite !(field_assign lock) by done.
    destruct (lock (deref (cache w) (Slot i))) as [p'|] eqn:El.
    + split; [by exists p'|]. split; [done|]. rewrite cache_with_cache.
      split; [unfold rebind; by rewrite !(field_assign lock)|].
      split; [right; by rewrite deref_rebind_eq|].
      intros x Hx. by rewrite deref_rebind_ne.
    + split; [done|]. rewrite !cache_with_cache. split.
      * by rewrite deref_assign_eq by (unfold rebind; by rewrite !in_range_assign).
      * intros x Hx. by rewrite deref_rebind_lock_ne.
Qed.

(** How [bread] returns on a well-formed list. *)
Lemma bread_Ret N l fuel p d n w b w1 :
  ring N (cache w) l → (N < fuel)%nat →
  bread fuel p d n w = Ret b w1 →
  ∃ i, b = Slot i ∧ i ∈ l ∧ ring N (cache w1) l ∧
       find (cached d n (cache w1)) l = Some i ∧
       lock (deref (cache w1) (Slot i)) = Some p ∧
       valid (deref (cache w1) (Slot i)) = true.
Proof.
  intros Hr Hf. rewrite bread_cases.
  pose proof (bget_outcomes N l fuel p d n w Hr Hf) as Ho.
  destruct (bget fuel p d n w) as [b' w1'| | |] eqn:E; try done.
  intros [= <- <-].
  destruct (bget_Ret_ident _ _ _ _ _ _ _ _ _ Hr Hf E) as (i & -> & Hi & Hid & Hr1).
  destruct (bget_Ret_first _ _ _ _ _ _ _ _ _ Hr Hf E) as (i' & [= <-] & Hfirst).
  destruct Ho as (_ & Hl & _).
  assert (Hin : in_range (cache w1') (Slot i)) by by eapply ring_in_range.
  exists i. split; [done|]. split; [done|].
  destruct (valid (deref (cache w1') (Slot i))) eqn:Ev; [done|].
  unfold filled; simpl. split; [by rewrite !ring_assign|]. split.
  - rewrite <- Hfirst. apply find_ext. intros x _. apply cached_ident.
    by rewrite !ident_assign.
  - split; [by rewrite !(field_assign lock)|].
    by rewrite deref_assign_eq by (by rewrite in_range_assign).
Qed.

Lemma find_app {A} (f : A → bool) l1 l2 :
  find f (l1 ++ l2) =
  match find f l1 with Some x => Some x | None => find f l2 end.
Proof.
  induction l1 as [|a l1 IH]; simpl; [done|]. by destruct (f a).
Qed.

(** ** Assignments that cancel *)

Lemma assign_assign p f g c :
  assign p f (assign p g c) = assign p (fun x => f (g x)) c.
Proof.
  unfold assign, store, deref. destruct p as [| |i]; simpl; [done|done|].
  f_equal. destruct (decide (i < length (bc_buf c))%nat) as [Hi|Hi].
  - rewrite list_lookup_insert_eq by done. simpl.
    by rewrite list_insert_insert_eq.
  - by rewrite !(list_insert_ge (bc_buf c)) by lia.
Qed.

Lemma assign_id p f c : f (deref c p) = deref c p → assign p f c = c.
Proof.
  unfold assign, store, deref. destruct p as [| |i]; simpl.
  - done.
  - intros ->. by destruct c.
  - intros ->. rewrite list_insert_id'; [by destruct c|].
    intros Hi. apply lookup_lt_is_Some_2 in Hi as [x Hx]. by rewrite Hx.
Qed.

Lemma io_with_cache f w : io (with_cache f w) = io w.
Proof. reflexivity. Qed.

Lemma disk_with_cache f w : disk (with_cache f w) = disk w.
Proof. reflexivity. Qed.

Lemma with_cache_id f w : f (cache w) = cache w → with_cache f w = w.
Proof. intros H. unfold with_cache. rewrite H. by destruct w. Qed.

Lemma set_refcnt_same x : set_refcnt (refcnt x) x = x.
Proof. by destruct x. Qed.

Lemma pin_unpin_cache b c :
  assign b (fun x => set_refcnt (refcnt x - 1) x)
    (assign b (fun x => set_refcnt (refcnt x + 1) x) c) = c.
Proof.
  rewrite assign_assign. apply assign_id.
  destruct (deref c b); unfold set_refcnt; simpl. f_equal. lia.
Qed.

Lemma unpin_pin_cache b c :
  assign b (fun x => set_refcnt (refcnt x + 1) x)
    (assign b (fun x => set_refcnt (refcnt x - 1) x) c) = c.
Proof.
  rewrite assign_assign. apply assign_id.
  destruct (deref c b); unfold set_refcnt; simpl. f_equal. lia.
Qed.

(** [binit] frees the sleep-lock of every buffer. *)
Lemma binit_loop_locks N c k i :
  length (bc_buf c) = N → (k ≤ N)%nat → (i < k)%nat →
  lock (deref (foldl (fun c i => binit_body i c) c (seq 0 k)) (Slot i)) = None.
Proof.
  intros Hlen Hk. induction k as [|k IH]; intros Hi; [lia|].
  rewrite seq_S, foldl_app. cbn [foldl Nat.add].
  set (ck := foldl (fun c i => binit_body i c) c (seq 0 k)) in *.
  assert (Hlk : length (bc_buf ck) = N).
  { unfold ck. clear IH Hi. induction k as [|k IHk]; [done|].
    rewrite seq_S, foldl_app. cbn [foldl Nat.add].
    rewrite length_binit_body. apply IHk. lia. }
  unfold binit_body; cbv zeta. rewrite !(field_assign lock) by done.
  destruct (decide (i = k)) as [->|Hne].
  - rewrite deref_assign_eq; [done|].
    rewrite !in_range_assign. simpl. lia.
  - apply lock_release_assign. rewrite !(field_assign lock) by done.
    apply IH; lia.
Qed.

Lemma binit_locks_free N c i :
  length (bc_buf c) = N → (i < N)%nat →
  lock (deref (binit N c) (Slot i)) = None.
Proof.
  intros Hlen Hi. unfold binit; cbv zeta.
  apply (binit_loop_locks N); [by rewrite !length_assign|done|done].
Qed.

Lemma with_cache_id_twice_pin b w :
  with_cache (assign b (fun x => set_refcnt (refcnt x - 1) x))
    (with_cache (assign b (fun x => set_refcnt (refcnt x + 1) x)) w) = w.
Proof.
  destruct w as [c dsk tr]. unfold with_cache; simpl. f_equal.
  apply pin_unpin_cache.
Qed.

Lemma with_cache_id_twice_unpin b w :
  with_cache (assign b (fun x => set_refcnt (refcnt x + 1) x))
    (with_cache (assign b (fun x => set_refcnt (refcnt x - 1) x)) w) = w.
Proof.
  destruct w as [c dsk tr]. unfold with_cache; simpl. f_equal.
  apply unpin_pin_cache.
Qed.

(** ** Filling the cache *)

Lemma holding_boot N p dsk : holding N p [] (cache (boot N dsk)).
Proof.
  split; [apply boot_inv|]. split; [done|].
  intros j _ _. simpl. unfold ident. rewrite !binit_field by done.
  rewrite deref_bcache0. split; [done|]. split; [done|].
  apply binit_lock. by rewrite deref_bcache0.
Qed.

Lemma holding_step N p pre fuel d n w :
  holding N p pre (cache w) → (length pre < N)%nat →
  (d, n) ∉ pre → (d, n) ≠ (0, 0) → (N < fuel)%nat →
  ∃ w', bread fuel p d n w = Ret (Slot (length pre)) w' ∧
        io w' = io w ++ [DiskRead d n] ∧ disk w' = disk w ∧
        holding N p (pre ++ [(d, n)]) (cache w').
Proof.
  intros (Hr & Hpre & Hrest) Hk Hnew Hnz Hf.
  set (k := length pre) in *.
  assert (Hin : in_range (cache w) (Slot k)).
  { simpl. by rewrite (proj1 Hr). }
  destruct (Hrest k (le_n _) Hk) as (Hidk & Hck & Hlk).
  assert (Hnone : find (cached d n (cache w)) (reverse (seq 0 N)) = None).
  { apply find_None_all. intros j Hj. apply cached_false.
    rewrite elem_of_reverse, elem_of_seq in Hj.
    destruct (decide (j < k)%nat) as [Hjk|Hjk].
    - apply lookup_lt_is_Some_2 in Hjk as [x Hx].
      destruct (Hpre j x Hx) as (-> & _). intros ->.
      apply Hnew. by eapply list_elem_of_lookup_2.
    - destruct (Hrest j) as (-> & _); [lia|lia|]. congruence. }
  assert (Hsome : find (unused (cache w)) (reverse (reverse (seq 0 N))) = Some k).
  { rewrite reverse_involutive. apply find_Some_split.
    exists (seq 0 k), (seq (S k) (N - S k)). split; [|split].
    - replace N with (k + S (N - S k))%nat at 1 by lia.
      by rewrite seq_app.
    - by apply unused_true.
    - intros j Hj. apply elem_of_seq in Hj. apply unused_false.
      assert (Hjk : (j < k)%nat) by lia.
      apply lookup_lt_is_Some_2 in Hjk as [x Hx].
      destruct (Hpre j x Hx) as (_ & -> & _). done. }
  rewrite bread_cases, (bget_ring N (cache w) _ fuel p d n w eq_refl Hr Hf).
  rewrite Hnone, Hsome, locked_return_cases, cache_with_cache.
  unfold rebind at 1. rewrite !(field_assign lock), Hlk by done.
  rewrite !cache_with_cache.
  set (c1 := assign (Slot k) (set_lock (Some p)) (rebind d n (Slot k) (cache w))).
  assert (Hd1 : deref c1 (Slot k) =
                set_lock (Some p) (set_refcnt 1 (set_valid false
                  (set_blockno n (set_dev d (deref (cache w) (Slot k))))))).
  { unfold c1. rewrite deref_assign_eq by (unfold rebind; by rewrite !in_range_assign).
    by rewrite deref_rebind_eq. }
  assert (Hin1 : in_range c1 (Slot k)).
  { unfold c1, rebind. by rewrite !in_range_assign. }
  rewrite Hd1. cbn [valid set_lock set_refcnt set_valid].
  eexists. split; [done|]. unfold filled. cbn [cache io disk with_cache].
  fold c1. rewrite Hd1. cbn [dev blockno set_lock set_refcnt set_valid set_blockno set_dev].
  split; [done|]. split; [done|].
  set (c2 := assign (Slot k) (set_valid true) (assign (Slot k) (set_data (disk w d n)) c1)).
  assert (Hd2 : deref c2 (Slot k) =
                set_valid true (set_data (disk w d n) (deref c1 (Slot k)))).
  { unfold c2. rewrite deref_assign_eq by (by rewrite in_range_assign).
    by rewrite deref_assign_eq. }
  assert (Hne2 : ∀ j, j ≠ k → deref c2 (Slot j) = deref (cache w) (Slot j)).
  { intros j Hj. unfold c2, c1.
    rewrite !deref_assign_ne by congruence. by rewrite deref_rebind_ne by congruence. }
  split; [|split].
  - unfold c2, c1, rebind. by rewrite !ring_assign.
  - intros j x Hx. destruct (decide (j = k)) as [->|Hjk].
    + unfold k in Hx. rewrite lookup_app_r, Nat.sub_diag in Hx by lia.
      injection Hx as <-. unfold ident. rewrite Hd2, Hd1. done.
    + assert (Hlt : (j < k)%nat).
      { apply lookup_lt_Some in Hx. rewrite length_app in Hx. simpl in Hx.
        unfold k in *. lia. }
      rewrite lookup_app_l in Hx by done. unfold ident. rewrite Hne2 by done.
      by apply Hpre.
  - intros j Hj HjN. rewrite length_app in Hj. simpl in Hj.
    unfold ident. rewrite Hne2 by (unfold k; lia).
    apply Hrest; [unfold k; lia|done].
Qed.

Lemma bread_each_holding N p fuel bs :
  ∀ pre w,
    holding N p pre (cache w) → NoDup (pre ++ bs) → (0, 0) ∉ bs →
    (length pre + length bs ≤ N)%nat → (N < fuel)%nat →
    ∃ w', bread_each fuel p bs w = Ret tt w' ∧
          io w' = io w ++ ((fun x => DiskRead x.1 x.2) <$> bs) ∧
          disk w' = disk w ∧
          holding N p (pre ++ bs) (cache w').
Proof.
  induction bs as [|[d n] bs IH]; intros pre w Hh Hnd Hz Hlen Hf.
  - exists w. cbn [fmap list_fmap bread_each]. rewrite !app_nil_r.
    split; [done|]. split; [done|]. split; [done|]. exact Hh.
  - simpl in Hlen.
    assert (Hnew : (d, n) ∉ pre).
    { apply NoDup_app in Hnd as (_ & Hd & _). intros Hin.
      apply (Hd _ Hin), list_elem_of_here. }
    assert (Hnz : (d, n) ≠ (0, 0)).
    { intros E. apply Hz. rewrite E. apply list_elem_of_here. }
    destruct (holding_step N p pre fuel d n w Hh) as (w1 & Hb & Hio & Hdisk & Hh1);
      [lia|done|done|done|].
    destruct (IH (pre ++ [(d, n)]) w1 Hh1) as (w' & Hb' & Hio' & Hdisk' & Hh');
      [by rewrite <- app_assoc| |rewrite length_app; simpl; lia|done|].
    { intros Hin. apply Hz. by apply list_elem_of_further. }
    exists w'. split; [|split; [|split]].
    + cbn [bread_each]. unfold bind at 1. by rewrite Hb.
    + rewrite Hio', Hio, <- app_assoc. done.
    + congruence.
    + by rewrite <- app_assoc in Hh'.
Qed.

(** * The claims *)

(** C9. [bwrite] and [brelse] called by a process that does not hold the
    sleep-lock of the buffer panic in the state they were called in: no
    disk transfer has been made and nothing has been assigned.  Called by
    the holder, neither panics: [bwrite] makes exactly the write transfer
    and returns, [brelse] returns after its critical section. *)
Theorem lock_protocol p b w :
  (lock (deref (cache w) b) ≠ Some p →
     bwrite p b w = Panic "bwrite" w ∧ brelse p b w = Panic "brelse" w) ∧
  (lock (deref (cache w) b) = Some p →
     (∃ w', bwrite p b w = Ret tt w' ∧ cache w' = cache w ∧
            io w' = io w ++ [DiskWrite (dev (deref (cache w) b))
                               (blockno (deref (cache w) b))
                               (data (deref (cache w) b))]) ∧
     brelse p b w = Ret tt (with_cache (released b) w)).
Proof.
  rewrite bwrite_cases, brelse_cases. split; intros H.
  - by rewrite bool_decide_false.
  - rewrite bool_decide_true by done. split; [|done].
    unfold virtio_disk_rw. eexists. split; [done|]. done.
Qed.

Lemma lock_protocol_witness :
  (lock (deref (cache (boot 2 (fun _ _ => []))) (Slot 0)) ≠ Some 7 ∧
   bwrite 7 (Slot 0) (boot 2 (fun _ _ => [])) = Panic "bwrite" (boot 2 (fun _ _ => [])) ∧
   brelse 7 (Slot 0) (boot 2 (fun _ _ => [])) = Panic "brelse" (boot 2 (fun _ _ => []))) ∧
  (lock (deref (cache (final (bget 3 7 1 5 (boot 2 (fun _ _ => []))))) (Slot 0)) = Some 7 ∧
   brelse 7 (Slot 0) (final (bget 3 7 1 5 (boot 2 (fun _ _ => [])))) =
   Ret tt (with_cache (released (Slot 0)) (final (bget 3 7 1 5 (boot 2 (fun _ _ => [])))))).
Proof.
  split.
  - split; [by vm_compute|].
    apply (proj1 (lock_protocol 7 (Slot 0) (boot 2 (fun _ _ => [])))).
    by vm_compute.
  - split; [by vm_compute|].
    apply (proj2 (lock_protocol 7 (Slot 0)
                    (final (bget 3 7 1 5 (boot 2 (fun _ _ => [])))))).
    by vm_compute.
Defined.

(** C5. On a well-formed list, when no buffer caches the requested block
    and every buffer has a positive count, [bget] panics with
    ["bget:no buffers"], whatever the fuel above [NBUF], and the world at
    the panic is the world of the call: no field of any buffer has been
    assigned. *)
Theorem bget_exhausted N l fuel p d n w :
  ring N (cache w) l → (N < fuel)%nat →
  (∀ i, (i < N)%nat → ident (cache w) i ≠ (d, n)) →
  (∀ i, (i < N)%nat → 0 < refcnt (deref (cache w) (Slot i))) →
  bget fuel p d n w = Panic "bget:no buffers" w.
Proof.
  intros Hr Hf Hid Hrc. rewrite (bget_ring N (cache w) l) by done.
  rewrite (proj2 (find_None_all _ l)).
  - rewrite (proj2 (find_None_all _ (reverse l))); [done|].
    intros i Hi. rewrite elem_of_reverse in Hi.
    apply unused_false. apply (ring_elem _ _ _ _ Hr) in Hi.
    specialize (Hrc i Hi). lia.
  - intros i Hi. apply cached_false, Hid. by apply (ring_elem _ _ _ _ Hr).
Qed.

Lemma bget_exhausted_witness :
  ring 1 (cache (final (bget 2 7 1 5 (boot 1 blank)))) [0%nat] ∧ (1 < 2)%nat ∧
  (∀ i, (i < 1)%nat → ident (cache (final (bget 2 7 1 5 (boot 1 blank)))) i ≠ (2, 6)) ∧
  (∀ i, (i < 1)%nat →
        0 < refcnt (deref (cache (final (bget 2 7 1 5 (boot 1 blank)))) (Slot i))) ∧
  bget 2 8 2 6 (final (bget 2 7 1 5 (boot 1 blank))) =
  Panic "bget:no buffers" (final (bget 2 7 1 5 (boot 1 blank))).
Proof.
  assert (H1 : ring 1 (cache (final (bget 2 7 1 5 (boot 1 blank)))) [0%nat]).
  { split; [reflexivity|]. split; [reflexivity|]. walks_now. }
  assert (H2 : ∀ i, (i < 1)%nat →
                    ident (cache (final (bget 2 7 1 5 (boot 1 blank)))) i ≠ (2, 6)).
  { intros i Hi. slot_cases i Hi. }
  assert (H3 : ∀ i, (i < 1)%nat →
            0 < refcnt (deref (cache (final (bget 2 7 1 5 (boot 1 blank)))) (Slot i))).
  { intros i Hi. slot_cases i Hi. }
  split; [exact H1|]. split; [lia|]. split; [exact H2|]. split; [exact H3|].
  apply (bget_exhausted 1 [0%nat] 2 8 2 6 _ H1); [lia|exact H2|exact H3].
Defined.

(** C2. On a well-formed list, when no buffer caches the requested block
    and some buffer has count zero, [bget] takes the buffer with count zero
    that is nearest to the least-recently-used end: every buffer after it
    in recency order has a non-zero count.  It sets that buffer's [dev] and
    [blockno] to the request, [valid] to 0 and [refcnt] to 1, touches no
    other field and no other buffer, and then takes the buffer's
    sleep-lock: it returns the buffer when the lock is free. *)
Theorem bget_recycles_lru N l fuel p d n w :
  ring N (cache w) l → (N < fuel)%nat →
  (∀ i, (i < N)%nat → ident (cache w) i ≠ (d, n)) →
  (∃ i, (i < N)%nat ∧ refcnt (deref (cache w) (Slot i)) = 0) →
  ∃ l1 i l2,
    l = l1 ++ i :: l2 ∧
    refcnt (deref (cache w) (Slot i)) = 0 ∧
    (∀ j, j ∈ l2 → refcnt (deref (cache w) (Slot j)) ≠ 0) ∧
    bget fuel p d n w = locked_return p (Slot i) (with_cache (rebind d n (Slot i)) w) ∧
    deref (rebind d n (Slot i) (cache w)) (Slot i) =
      set_refcnt 1 (set_valid false (set_blockno n (set_dev d (deref (cache w) (Slot i))))) ∧
    (∀ q, q ≠ Slot i → deref (rebind d n (Slot i) (cache w)) q = deref (cache w) q) ∧
    (lock (deref (cache w) (Slot i)) = None →
     bget fuel p d n w =
     Ret (Slot i) (with_cache (assign (Slot i) (set_lock (Some p)))
                     (with_cache (rebind d n (Slot i)) w))).
Proof.
  intros Hr Hf Hid (i0 & Hi0 & Hz).
  rewrite (bget_ring N (cache w) l) by done.
  rewrite (proj2 (find_None_all _ l)).
  2: { intros i Hi. apply cached_false, Hid. by apply (ring_elem _ _ _ _ Hr). }
  destruct (find (unused (cache w)) (reverse l)) as [i|] eqn:E.
  - apply find_reverse_split in E as (l1 & l2 & -> & Hi & Hl2).
    exists l1, i, l2. split; [done|].
    assert (Hin : in_range (cache w) (Slot i)).
    { apply (ring_in_range _ _ _ _ Hr), elem_of_app. right. apply list_elem_of_here. }
    split; [by apply unused_true|].
    split; [intros j Hj; by apply unused_false, Hl2|].
    split; [done|].
    split; [by apply deref_rebind_eq|].
    split; [intros q Hq; by apply deref_rebind_ne|].
    intros Hfree. rewrite locked_return_cases, cache_with_cache.
    unfold rebind at 1. rewrite !(field_assign lock) by done. by rewrite Hfree.
  - exfalso. rewrite find_None_all in E.
    assert (Hrev : i0 ∈ reverse l).
    { rewrite elem_of_reverse. by apply (ring_elem _ _ _ _ Hr). }
    specialize (E i0 Hrev). apply unused_false in E. done.
Qed.

Lemma bget_recycles_lru_witness :
  ring 2 (cache (boot 2 blank)) [1; 0]%nat ∧ (2 < 3)%nat ∧
  (∀ i, (i < 2)%nat → ident (cache (boot 2 blank)) i ≠ (1, 5)) ∧
  (∃ i, (i < 2)%nat ∧ refcnt (deref (cache (boot 2 blank)) (Slot i)) = 0) ∧
  ∃ l1 i l2,
    [1; 0]%nat = l1 ++ i :: l2 ∧
    refcnt (deref (cache (boot 2 blank)) (Slot i)) = 0 ∧
    (∀ j, j ∈ l2 → refcnt (deref (cache (boot 2 blank)) (Slot j)) ≠ 0) ∧
    bget 3 7 1 5 (boot 2 blank) =
      locked_return 7 (Slot i) (with_cache (rebind 1 5 (Slot i)) (boot 2 blank)) ∧
    deref (rebind 1 5 (Slot i) (cache (boot 2 blank))) (Slot i) =
      set_refcnt 1 (set_valid false (set_blockno 5 (set_dev 1
        (deref (cache (boot 2 blank)) (Slot i))))) ∧
    (∀ q, q ≠ Slot i →
          deref (rebind 1 5 (Slot i) (cache (boot 2 blank))) q =
          deref (cache (boot 2 blank)) q) ∧
    (lock (deref (cache (boot 2 blank)) (Slot i)) = None →
     bget 3 7 1 5 (boot 2 blank) =
     Ret (Slot i) (with_cache (assign (Slot i) (set_lock (Some 7)))
                     (with_cache (rebind 1 5 (Slot i)) (boot 2 blank)))).
Proof.
  assert (H1 : ring 2 (cache (boot 2 blank)) [1; 0]%nat).
  { split; [reflexivity|]. split; [apply perm_swap|]. walks_now. }
  assert (H2 : ∀ i, (i < 2)%nat → ident (cache (boot 2 blank)) i ≠ (1, 5)).
  { intros i Hi. slot_cases i Hi. }
  assert (H3 : ∃ i, (i < 2)%nat ∧ refcnt (deref (cache (boot 2 blank)) (Slot i)) = 0).
  { exists 0%nat. split; [lia|reflexivity]. }
  split; [exact H1|]. split; [lia|]. split; [exact H2|]. split; [exact H3|].
  apply (bget_recycles_lru 2 [1; 0]%nat 3 7 1 5 (boot 2 blank) H1); [lia|exact H2|exact H3].
Defined.

(** C3. [bget] makes no disk transfer, however it ends.  On a well-formed
    list on which some buffer caches the requested block or has count
    zero, [bread] settles on one buffer.  When the sleep-lock of that
    buffer is free, [bget] returns it and [bread] returns it too, bound to
    the requested block, valid and locked by the caller; [bread] has made
    one read transfer of that block, into the payload, if the buffer came
    back from [bget] with [valid] 0, and none otherwise, in which case it
    has changed nothing after [bget].  When the lock is held, [bread]
    sleeps on it and has made no transfer.  On a list that is exhausted
    [bread] panics. *)
Theorem bread_valid N l fuel p d n w :
  ring N (cache w) l → (N < fuel)%nat →
  io (final (bget fuel p d n w)) = io w ∧
  ((∀ j, (j < N)%nat →
         ident (cache w) j ≠ (d, n) ∧ refcnt (deref (cache w) (Slot j)) ≠ 0) →
   bread fuel p d n w = Panic "bget:no buffers" w) ∧
  ((∃ j, (j < N)%nat ∧
         (ident (cache w) j = (d, n) ∨ refcnt (deref (cache w) (Slot j)) = 0)) →
   ∃ i, (i < N)%nat ∧
     (∀ p', lock (deref (cache w) (Slot i)) = Some p' →
            ∃ w1, bread fuel p d n w = Sleeping (Slot i) w1 ∧ io w1 = io w) ∧
     (lock (deref (cache w) (Slot i)) = None →
      ∃ w1 w2,
        bget fuel p d n w = Ret (Slot i) w1 ∧
        bread fuel p d n w = Ret (Slot i) w2 ∧
        ident (cache w2) i = (d, n) ∧
        valid (deref (cache w2) (Slot i)) = true ∧
        lock (deref (cache w2) (Slot i)) = Some p ∧
        io w2 = io w ++ (if valid (deref (cache w1) (Slot i)) then []
                         else [DiskRead d n]) ∧
        (valid (deref (cache w1) (Slot i)) = true → w2 = w1) ∧
        (valid (deref (cache w1) (Slot i)) = false →
         data (deref (cache w2) (Slot i)) = disk w d n))).
Proof.
  intros Hr Hf. split; [apply bget_frame|]. split.
  { intros Hex. rewrite bread_cases, (bget_ring N (cache w) l) by done.
    rewrite (proj2 (find_None_all _ l)).
    - rewrite (proj2 (find_None_all _ (reverse l))); [done|].
      intros i Hi. rewrite elem_of_reverse in Hi.
      apply unused_false. apply (ring_elem _ _ _ _ Hr) in Hi.
      by destruct (Hex i Hi).
    - intros i Hi. apply cached_false.
      apply (ring_elem _ _ _ _ Hr) in Hi. by destruct (Hex i Hi). }
  intros Hav.
  destruct (bget_chooses N l fuel p d n w Hr Hf Hav) as (i & Hi & Hch).
  exists i. split; [done|]. split.
  - intros p' Hl. rewrite Hl in Hch. destruct Hch as (w1 & E).
    exists w1. rewrite bread_cases, E. split; [done|].
    pose proof (bget_frame fuel p d n w) as (_ & Hio & _). by rewrite E in Hio.
  - intros Hl. rewrite Hl in Hch. destruct Hch as (w1 & E).
    destruct (bget_Ret_ident _ _ _ _ _ _ _ _ _ Hr Hf E) as (i' & [= <-] & Hil & Hid & Hr1).
    destruct (bget_Ret _ _ _ _ _ _ _ _ _ Hr Hf E) as (? & _ & _ & Hdisk & Hio & _).
    pose proof (bget_outcomes N l fuel p d n w Hr Hf) as Ho.
    rewrite E in Ho. destruct Ho as (_ & Hheld & _).
    assert (Hin : in_range (cache w1) (Slot i)) by by eapply ring_in_range.
    exists w1, (if valid (deref (cache w1) (Slot i)) then w1 else filled (Slot i) w1).
    split; [done|]. split; [by rewrite bread_cases, E|].
    destruct (valid (deref (cache w1) (Slot i))) eqn:Ev.
    + rewrite app_nil_r. by repeat split.
    + unfold filled; simpl. split; [by rewrite !ident_assign|].
      rewrite !(field_assign lock) by done.
      rewrite deref_assign_eq by (by apply in_range_assign).
      rewrite deref_assign_eq by done. simpl.
      injection Hid as -> ->. rewrite Hio, Hdisk. by repeat split.
Qed.

Lemma bread_valid_witness :
  ring 2 (cache example_boot) [1; 0]%nat ∧ (2 < 3)%nat ∧
  (∃ j, (j < 2)%nat ∧
        (ident (cache example_boot) j = (1, 5) ∨
         refcnt (deref (cache example_boot) (Slot j)) = 0)) ∧
  ∃ i w2, bread 3 7 1 5 example_boot = Ret (Slot i) w2 ∧
          ident (cache w2) i = (1, 5) ∧
          valid (deref (cache w2) (Slot i)) = true.
Proof.
  assert (H1 : ring 2 (cache example_boot) [1; 0]%nat).
  { split; [reflexivity|]. split; [apply perm_swap|]. walks_now. }
  assert (H2 : (2 < 3)%nat) by lia.
  assert (H3 : ∃ j, (j < 2)%nat ∧
                    (ident (cache example_boot) j = (1, 5) ∨
                     refcnt (deref (cache example_boot) (Slot j)) = 0)).
  { exists 0%nat. split; [lia|]. right. reflexivity. }
  split; [exact H1|]. split; [exact H2|]. split; [exact H3|].
  destruct (proj2 (proj2 (bread_valid 2 [1; 0]%nat 3 7 1 5 example_boot H1 H2)) H3)
    as (i & Hi & _ & Hret).
  assert (Hfree : lock (deref (cache example_boot) (Slot i)) = None).
  { destruct i as [|[|i]]; [reflexivity|reflexivity|exfalso; lia]. }
  destruct (Hret Hfree) as (w1 & w2 & _ & Hb & Hid & Hv & _).
  exists i, w2. split; [exact Hb|]. split; [exact Hid|exact Hv].
Defined.

(** C4. [brelse] called by the holder of the sleep-lock of buffer [i] of a
    well-formed list returns, having freed the lock and lowered the count
    of [i] by one; disk, trace and every other field of every buffer are
    as before.  When the count has reached zero, [i] is first in recency
    order and the other buffers keep their relative order; otherwise no
    link has changed and the order is the same. *)
Theorem brelse_spec N l p i w :
  ring N (cache w) l → (i < N)%nat →
  lock (deref (cache w) (Slot i)) = Some p →
  ∃ w', brelse p (Slot i) w = Ret tt w' ∧
    disk w' = disk w ∧ io w' = io w ∧
    lock (deref (cache w') (Slot i)) = None ∧
    refcnt (deref (cache w') (Slot i)) = refcnt (deref (cache w) (Slot i)) - 1 ∧
    (∀ q, q ≠ Slot i →
          lock (deref (cache w') q) = lock (deref (cache w) q) ∧
          refcnt (deref (cache w') q) = refcnt (deref (cache w) q)) ∧
    (∀ q, dev (deref (cache w') q) = dev (deref (cache w) q) ∧
          blockno (deref (cache w') q) = blockno (deref (cache w) q) ∧
          valid (deref (cache w') q) = valid (deref (cache w) q) ∧
          data (deref (cache w') q) = data (deref (cache w) q)) ∧
    (refcnt (deref (cache w) (Slot i)) - 1 = 0 →
     ∃ l1 l2, l = l1 ++ i :: l2 ∧ ring N (cache w') (i :: l1 ++ l2)) ∧
    (refcnt (deref (cache w) (Slot i)) - 1 ≠ 0 →
     links (cache w') = links (cache w) ∧ ring N (cache w') l).
Proof.
  intros Hr Hi Hheld. rewrite brelse_cases, bool_decide_true by done.
  eexists. split; [done|]. simpl.
  assert (Hin : in_range (cache w) (Slot i)) by by eapply held_in_range.
  split; [done|]. split; [done|].
  split. { rewrite field_released by done. by rewrite deref_uncounted_eq. }
  split. { rewrite field_released by done. by rewrite deref_uncounted_eq. }
  split.
  { intros q Hq. rewrite !field_released by done.
    by rewrite deref_uncounted_ne. }
  split.
  { intros q. rewrite !field_released by done. unfold uncounted.
    by rewrite !(field_assign dev), !(field_assign blockno),
      !(field_assign valid), !(field_assign data). }
  split.
  - intros Hz. rewrite released_move by done.
    apply (ring_elem _ _ _ _ Hr) in Hi.
    apply list_elem_of_split in Hi as (l1 & l2 & ->).
    exists l1, l2. split; [done|].
    by apply move_front_ring, ring_uncounted.
  - intros Hz. rewrite released_stay by done.
    split; [apply links_uncounted|by apply ring_uncounted].
Qed.

Lemma brelse_spec_witness :
  ring 2 (cache example_held) [1; 0]%nat ∧ (0 < 2)%nat ∧
  lock (deref (cache example_held) (Slot 0)) = Some 7 ∧
  ∃ w', brelse 7 (Slot 0) example_held = Ret tt w' ∧
        lock (deref (cache w') (Slot 0)) = None ∧
        refcnt (deref (cache w') (Slot 0)) =
          refcnt (deref (cache example_held) (Slot 0)) - 1 ∧
        (refcnt (deref (cache example_held) (Slot 0)) - 1 = 0 →
         ∃ l1 l2, [1; 0]%nat = l1 ++ 0%nat :: l2 ∧
                  ring 2 (cache w') (0%nat :: l1 ++ l2)).
Proof.
  assert (H1 : ring 2 (cache example_held) [1; 0]%nat).
  { split; [reflexivity|]. split; [apply perm_swap|]. walks_now. }
  assert (H2 : (0 < 2)%nat) by lia.
  assert (H3 : lock (deref (cache example_held) (Slot 0)) = Some 7) by reflexivity.
  split; [exact H1|]. split; [exact H2|]. split; [exact H3|].
  destruct (brelse_spec 2 [1; 0]%nat 7 0 example_held H1 H2 H3)
    as (w' & Hb & _ & _ & Hl & Hc & _ & _ & Hmove & _).
  exists w'. auto.
Defined.

(** C10. [bget] (on a hit, on a rebind, and however it ends), [bpin],
    [bunpin], [bread] and [bwrite] leave every [prev] and [next] pointer of
    the cache as it was, so a well-formed list keeps its order; [brelse]
    changes a link only when the caller holds the buffer and the decrement
    brings its count to zero. *)
Theorem list_order_frame :
  (∀ fuel p d n w, links (cache (final (bget fuel p d n w))) = links (cache w)) ∧
  (∀ b w, links (cache (final (bpin b w))) = links (cache w)) ∧
  (∀ b w, links (cache (final (bunpin b w))) = links (cache w)) ∧
  (∀ fuel p d n w, links (cache (final (bread fuel p d n w))) = links (cache w)) ∧
  (∀ p b w, links (cache (final (bwrite p b w))) = links (cache w)) ∧
  (∀ p b w, links (cache (final (brelse p b w))) = links (cache w) ∨
            (lock (deref (cache w) b) = Some p ∧
             refcnt (deref (cache w) b) - 1 = 0)) ∧
  (∀ N c c' l, links c' = links c → ring N c l → ring N c' l).
Proof.
  destruct links_frame as (H1 & H2 & H3 & H4 & H5 & H6).
  do 6 (split; [assumption|]). intros N c c' l. apply ring_links.
Qed.

(** C7. After [binit] the recency list is well formed and threads the
    [NBUF] buffers, last initialised first.  Every call, however it ends,
    leaves a well-formed list well formed over the same buffers, so every
    reachable world has a well-formed list; and in a well-formed list [prev]
    and [next] are mutually inverse on the sentinel and on every buffer. *)
Theorem ring_invariant N :
  (∀ dsk, ring N (cache (boot N dsk)) (reverse (seq 0 N))) ∧
  (∀ w l o, ring N (cache w) l → op_ok N o →
            ∃ l', l' ≡ₚ l ∧ ring N (cache (final (exec (S N) o w))) l') ∧
  (∀ w, reachable N w → ∃ l, ring N (cache w) l) ∧
  (∀ c l x, ring N c l → in_range c x →
            prev (deref c (next (deref c x))) = x ∧
            next (deref c (prev (deref c x))) = x).
Proof.
  split; [|split; [|split]].
  - intros dsk. apply boot_inv.
  - intros w l o. apply exec_final_ring.
  - intros w Hw. destruct (reachable_inv _ _ _ Hw) as (l & Hr & _). by exists l.
  - intros c l x. apply ring_inverse.
Qed.

Lemma ring_invariant_witness :
  reachable 2 example_boot ∧ ∃ l, ring 2 (cache example_boot) l.
Proof.
  assert (H : reachable 2 example_boot) by apply reach_boot.
  split; [exact H|].
  exact (proj1 (proj2 (proj2 (ring_invariant 2))) example_boot H).
Defined.

(** C6, as stated, fails: right after [binit] the two buffers of a cache of
    two carry the same device and block number. *)
Lemma duplicate_identity_after_binit :
  ¬ (∀ N w, reachable N w →
            ∀ i j, (i < N)%nat → (j < N)%nat → i ≠ j →
                   ident (cache w) i ≠ ident (cache w) j).
Proof.
  intros H.
  apply (H 2%nat example_boot (reach_boot _ _ _) 0%nat 1%nat); [lia|lia|lia|].
  reflexivity.
Qed.

(** C6, amended.  In every world that calls leave behind, however they
    end, two distinct buffers carry the same device and block number only
    if these are 0 and 0, the identity of static storage that [binit]
    leaves in place, and then at least one of the two is still as [binit]
    left it: not valid, its sleep-lock free, its payload untouched.  So no
    block has two live copies. *)
Theorem duplicates_only_unbound N w i j :
  reachable_all any_call N w → (i < N)%nat → (j < N)%nat → i ≠ j →
  ident (cache w) i = ident (cache w) j →
  ident (cache w) i = (0, 0) ∧
  (pristine (cache w) i ∨ pristine (cache w) j).
Proof.
  intros Hw Hi Hj Hne Heq.
  destruct (reachable_all_inv _ _ _ Hw) as (l & Hr & Hfresh).
  apply (ring_elem _ _ _ _ Hr) in Hi, Hj.
  destruct (before_total l i j Hi Hj Hne) as [Hb|Hb].
  - destruct (Hfresh i j Hb Heq) as [Hz Hl]. rewrite Heq. auto.
  - destruct (Hfresh j i Hb (eq_sym Heq)) as [Hz Hl]. auto.
Qed.

Lemma duplicates_only_unbound_witness :
  reachable_all any_call 2 example_zero ∧
  (0 < 2)%nat ∧ (1 < 2)%nat ∧ 0%nat ≠ 1%nat ∧
  ident (cache example_zero) 0 = ident (cache example_zero) 1 ∧
  ident (cache example_zero) 0 = (0, 0) ∧
  (pristine (cache example_zero) 0 ∨ pristine (cache example_zero) 1).
Proof.
  assert (H : reachable_all any_call 2 example_zero).
  { exact (reach_all_step any_call 2 example_boot (Read 7 0 0)
             (reach_all_boot _ _ _) I I). }
  assert (H0 : (0 < 2)%nat) by lia.
  assert (H1 : (1 < 2)%nat) by lia.
  assert (H2 : 0%nat ≠ 1%nat) by lia.
  assert (H3 : ident (cache example_zero) 0 = ident (cache example_zero) 1)
    by reflexivity.
  do 5 (split; [assumption|]).
  exact (duplicates_only_unbound 2 example_zero 0 1 H H0 H1 H2 H3).
Defined.

(** C8. When [brelse] and [bunpin] are only called on buffers whose count
    is positive, no count is negative in any world that the calls leave
    behind, however they end, and so in none that returning calls reach;
    each such call leaves every count where it was or higher, or lowers it
    by one from a positive value.  The code itself does not check:
    [brelse] called by the holder of a buffer whose count is zero returns,
    and the count that it stores is no longer zero. *)
Theorem refcnt_never_negative N :
  (∀ w, reachable_all counted N w → ∀ q, 0 ≤ refcnt (deref (cache w) q)) ∧
  (∀ w, reachable_by counted N w → ∀ q, 0 ≤ refcnt (deref (cache w) q)) ∧
  (∀ w o q,
     reachable_all counted N w → op_ok N o →
     counted o w (final (exec (S N) o w)) →
     refcnt (deref (cache w) q) ≤ refcnt (deref (cache (final (exec (S N) o w))) q) ∨
     (0 < refcnt (deref (cache w) q) ∧
      refcnt (deref (cache (final (exec (S N) o w))) q) =
        refcnt (deref (cache w) q) - 1)) ∧
  (∀ p i w, lock (deref (cache w) (Slot i)) = Some p →
            refcnt (deref (cache w) (Slot i)) = 0 →
            ∃ w', brelse p (Slot i) w = Ret tt w' ∧
                  refcnt (deref (cache w') (Slot i)) ≠ 0 ∧
                  lock (deref (cache w') (Slot i)) = None).
Proof.
  split; [apply counted_all_nonneg|].
  split; [intros w Hw; by apply (counted_all_nonneg N), reachable_by_all|].
  split; [intros w o q; apply counted_lowers|].
  intros p i w Hheld Hz. rewrite brelse_cases, bool_decide_true by done.
  eexists. split; [done|]. rewrite cache_with_cache.
  rewrite !field_released by done.
  rewrite deref_uncounted_eq by (by eapply held_in_range). simpl.
  split; [lia|done].
Qed.

Lemma refcnt_never_negative_witness :
  reachable_all counted 2 example_counted ∧
  (∀ q, 0 ≤ refcnt (deref (cache example_counted) q)) ∧
  lock (deref (cache example_unpinned) (Slot 0)) = Some 7 ∧
  refcnt (deref (cache example_unpinned) (Slot 0)) = 0 ∧
  ∃ w', brelse 7 (Slot 0) example_unpinned = Ret tt w' ∧
        refcnt (deref (cache w') (Slot 0)) ≠ 0 ∧
        lock (deref (cache w') (Slot 0)) = None.
Proof.
  assert (Hboot : reachable_all counted 2 example_boot) by apply reach_all_boot.
  assert (Hread : reachable_all counted 2 (final (exec 3 (Read 7 1 5) example_boot))).
  { apply (reach_all_step counted 2 example_boot (Read 7 1 5) Hboot); exact I. }
  assert (Hpin : reachable_all counted 2
            (final (exec 3 (Pin (Slot 0)) (final (exec 3 (Read 7 1 5) example_boot))))).
  { apply (reach_all_step counted 2 _ (Pin (Slot 0)) Hread); [simpl; lia|exact I]. }
  assert (Hunpin : reachable_all counted 2
            (final (exec 3 (Unpin (Slot 0))
              (final (exec 3 (Pin (Slot 0))
                (final (exec 3 (Read 7 1 5) example_boot))))))).
  { apply (reach_all_step counted 2 _ (Unpin (Slot 0)) Hpin); [simpl; lia|].
    vm_compute. reflexivity. }
  assert (H : reachable_all counted 2 example_counted).
  { apply (reach_all_step counted 2 _ (Release 7 (Slot 0)) Hunpin); [simpl; lia|].
    vm_compute. reflexivity. }
  assert (Hl : lock (deref (cache example_unpinned) (Slot 0)) = Some 7)
    by reflexivity.
  assert (Hz : refcnt (deref (cache example_unpinned) (Slot 0)) = 0)
    by reflexivity.
  split; [exact H|].
  split; [exact (proj1 (refcnt_never_negative 2) example_counted H)|].
  split; [exact Hl|]. split; [exact Hz|].
  exact (proj2 (proj2 (proj2 (refcnt_never_negative 2))) 7 0%nat example_unpinned Hl Hz).
Defined.

(** C1. In a reachable world let [bget] return buffer [b] for a block, and
    let [b] keep a positive count through any further calls (no release
    brings it to zero).  Then [bget] for the same block chooses [b] again:
    it adds one to the count of [b], assigns no [dev], [blockno], [valid]
    or [data] and no other count, makes no disk transfer, and takes the
    sleep-lock of [b], returning [b] when that lock is free. *)
Theorem bget_coherent N fuel fuel' p q d n w b w1 w2 :
  reachable N w → (N < fuel)%nat → (N < fuel')%nat →
  bget fuel p d n w = Ret b w1 →
  0 < refcnt (deref (cache w1) b) →
  rtc (step (keeps b) N) w1 w2 →
  bget fuel' q d n w2 = locked_return q b (with_cache (hit b) w2) ∧
  disk (final (bget fuel' q d n w2)) = disk w2 ∧
  io (final (bget fuel' q d n w2)) = io w2 ∧
  refcnt (deref (cache (final (bget fuel' q d n w2))) b) =
    refcnt (deref (cache w2) b) + 1 ∧
  (∀ x, x ≠ b → refcnt (deref (cache (final (bget fuel' q d n w2))) x) =
                refcnt (deref (cache w2) x)) ∧
  (∀ x, dev (deref (cache (final (bget fuel' q d n w2))) x) = dev (deref (cache w2) x) ∧
        blockno (deref (cache (final (bget fuel' q d n w2))) x) =
          blockno (deref (cache w2) x) ∧
        valid (deref (cache (final (bget fuel' q d n w2))) x) =
          valid (deref (cache w2) x) ∧
        data (deref (cache (final (bget fuel' q d n w2))) x) =
          data (deref (cache w2) x)) ∧
  (lock (deref (cache w2) b) = None →
   bget fuel' q d n w2 = Ret b (final (bget fuel' q d n w2))).
Proof.
  intros Hw Hf Hf' Hb Hpos Hrtc.
  destruct (reachable_inv _ _ _ Hw) as (l & Hinv).
  destruct (bget_pinned _ _ _ _ _ _ _ _ _ Hinv Hf Hb) as (i & -> & Hinv1 & Hfind1).
  assert (Hp2 : pinned_first N d n i w2).
  { eapply rtc_pinned; [|exact Hrtc]. by exists l. }
  destruct (bget_again N fuel' q d n i w2 Hp2 Hf') as [Hin ->].
  split; [done|]. by apply locked_hit_fields.
Qed.

Lemma bget_coherent_witness :
  reachable 2 example_boot ∧ (2 < 3)%nat ∧
  bget 3 7 1 5 example_boot = Ret (Slot 0) example_held ∧
  0 < refcnt (deref (cache example_held) (Slot 0)) ∧
  rtc (step (keeps (Slot 0)) 2) example_held example_pinned ∧
  bget 3 8 1 5 example_pinned =
    locked_return 8 (Slot 0) (with_cache (hit (Slot 0)) example_pinned) ∧
  refcnt (deref (cache (final (bget 3 8 1 5 example_pinned))) (Slot 0)) =
    refcnt (deref (cache example_pinned) (Slot 0)) + 1 ∧
  bget 3 8 1 5 example_pinned = Ret (Slot 0) (final (bget 3 8 1 5 example_pinned)).
Proof.
  assert (H1 : reachable 2 example_boot) by apply reach_boot.
  assert (H2 : (2 < 3)%nat) by lia.
  assert (H3 : bget 3 7 1 5 example_boot = Ret (Slot 0) example_held)
    by (vm_compute; reflexivity).
  assert (H4 : 0 < refcnt (deref (cache example_held) (Slot 0)))
    by (vm_compute; reflexivity).
  assert (H5 : rtc (step (keeps (Slot 0)) 2) example_held example_pinned).
  { apply rtc_l with (final (exec 3 (Pin (Slot 0)) example_held)).
    - exists (Pin (Slot 0)). split; [simpl; lia|].
      split; [vm_compute; reflexivity|vm_compute; reflexivity].
    - apply rtc_once. exists (Release 7 (Slot 0)). split; [simpl; lia|].
      split; [vm_compute; reflexivity|vm_compute; reflexivity]. }
  destruct (bget_coherent 2 3 3 7 8 1 5 example_boot (Slot 0) example_held
              example_pinned H1 H2 H2 H3 H4 H5)
    as (E1 & _ & _ & E2 & _ & _ & E3).
  do 7 (split; [assumption|]).
  apply E3. vm_compute; reflexivity.
Defined.

(** * Further properties of [bio.c] *)

(** X1. A buffer that is counted and valid is left alone by the cache: no
    call of [bget], [bread], [bwrite], [brelse], [bpin] or [bunpin], on any
    buffer, by any process and however it ends, changes its [dev],
    [blockno], [valid] or [data]; and so through any sequence of returning
    calls that keeps its count positive. *)
Theorem counted_valid_buffer_stable N i w :
  0 < refcnt (deref (cache w) (Slot i)) →
  valid (deref (cache w) (Slot i)) = true →
  (∀ fuel o, same_content (cache w) (cache (final (exec fuel o w))) (Slot i)) ∧
  (∀ w', rtc (step (keeps (Slot i)) N) w w' →
         same_content (cache w) (cache w') (Slot i)).
Proof.
  intros Hpos Hv. split.
  - intros fuel o. apply exec_stable; [lia|done].
  - intros w'. by apply rtc_stable.
Qed.

Lemma counted_valid_buffer_stable_witness :
  0 < refcnt (deref (cache example_read) (Slot 0)) ∧
  valid (deref (cache example_read) (Slot 0)) = true ∧
  same_content (cache example_read)
    (cache (final (exec 3 (Read 8 2 9) example_read))) (Slot 0).
Proof.
  assert (H1 : 0 < refcnt (deref (cache example_read) (Slot 0)))
    by (vm_compute; reflexivity).
  assert (H2 : valid (deref (cache example_read) (Slot 0)) = true)
    by (vm_compute; reflexivity).
  split; [exact H1|]. split; [exact H2|].
  exact (proj1 (counted_valid_buffer_stable 2 0 example_read H1 H2) 3%nat (Read 8 2 9)).
Defined.



(** X3. A block that has been read and released is served from the cache:
    after [bread] returned buffer [b] for a block and the caller released it
    with [brelse], the next [bread] for the same block, by any process,
    returns the same buffer with the same payload and makes no disk
    transfer. *)
Theorem reread_hits_cache N l fuel p q d n w b w1 :
  ring N (cache w) l → (N < fuel)%nat →
  bread fuel p d n w = Ret b w1 →
  ∃ w2 w3,
    brelse p b w1 = Ret tt w2 ∧
    bread fuel q d n w2 = Ret b w3 ∧
    io w3 = io w1 ∧ disk w3 = disk w1 ∧
    data (deref (cache w3) b) = data (deref (cache w1) b) ∧
    valid (deref (cache w3) b) = true ∧
    lock (deref (cache w3) b) = Some q.
Proof.
  intros Hr Hf Hb.
  destruct (bread_Ret _ _ _ _ _ _ _ _ _ Hr Hf Hb)
    as (i & -> & Hi & Hr1 & Hfirst & Hheld & Hv).
  assert (Hin : in_range (cache w1) (Slot i)) by by eapply held_in_range.
  rewrite brelse_cases, bool_decide_true by done.
  exists (with_cache (released (Slot i)) w1),
    (with_cache (assign (Slot i) (set_lock (Some q)))
       (with_cache (hit (Slot i)) (with_cache (released (Slot i)) w1))).
  remember (with_cache (released (Slot i)) w1) as w2 eqn:Ew2.
  assert (Ec2 : cache w2 = released (Slot i) (cache w1)) by by rewrite Ew2.
  assert (Eio2 : io w2 = io w1) by by rewrite Ew2.
  assert (Edisk2 : disk w2 = disk w1) by by rewrite Ew2.
  clear Ew2.
  pose proof Hi as Hsplit. apply list_elem_of_split in Hsplit as (l1 & l2 & Hl).
  assert (Hch : change l (cache w1) (Some i)
                  (if refcnt (deref (cache w1) (Slot i)) - 1 =? 0
                   then i :: l1 ++ l2 else l) (cache w2))
    by (rewrite Ec2; by eapply ch_release).
  pose proof (change_ring N _ _ _ _ _ Hr1 Hch) as Hr2.
  assert (Hci : cached d n (cache w1) i = true)
    by by apply find_Some_split in Hfirst as (? & ? & _ & ? & _).
  assert (Hfirst2 : find (cached d n (cache w2))
                      (if refcnt (deref (cache w1) (Slot i)) - 1 =? 0
                       then i :: l1 ++ l2 else l) = Some i).
  { rewrite (find_ext _ (cached d n (cache w1)))
      by (intros x _; rewrite Ec2; apply cached_ident, ident_released).
    destruct (_ =? 0); [|done]. simpl. by rewrite Hci. }
  destruct (same_content_released (Slot i) (cache w1) (Slot i)) as (_ & _ & Hv2 & Hd2).
  assert (Hl2 : lock (deref (cache w2) (Slot i)) = None).
  { rewrite Ec2, field_released by done.
    by rewrite deref_uncounted_eq. }
  assert (Hin2 : in_range (cache w2) (Slot i)).
  { change (i < length (bc_buf (cache w2)))%nat.
    rewrite (proj1 Hr2), <- (proj1 Hr1). exact Hin. }
  split; [done|].
  rewrite bread_cases, (bget_ring N (cache w2) _ fuel q d n w2 eq_refl Hr2 Hf), Hfirst2.
  rewrite locked_return_cases, cache_with_cache.
  unfold hit at 1. rewrite (field_assign lock), Hl2 by done.
  rewrite !cache_with_cache.
  assert (Hv3 : valid (deref (assign (Slot i) (set_lock (Some q))
                                (hit (Slot i) (cache w2))) (Slot i)) = true).
  { unfold hit. rewrite !(field_assign valid) by done.
    rewrite Ec2. by rewrite Hv2. }
  rewrite Hv3. split; [done|].
  rewrite !io_with_cache, !disk_with_cache, ?cache_with_cache.
  split; [done|]. split; [done|]. split.
  - unfold hit. rewrite !(field_assign data) by done. rewrite Ec2. exact Hd2.
  - split; [done|].
    by rewrite deref_assign_eq by (unfold hit; by rewrite in_range_assign).
Qed.

Lemma reread_hits_cache_witness :
  ring 2 (cache example_boot) [1; 0]%nat ∧ (2 < 3)%nat ∧
  bread 3 7 1 5 example_boot = Ret (Slot 0) example_read ∧
  ∃ w2 w3,
    brelse 7 (Slot 0) example_read = Ret tt w2 ∧
    bread 3 8 1 5 w2 = Ret (Slot 0) w3 ∧
    io w3 = io example_read ∧ disk w3 = disk example_read ∧
    data (deref (cache w3) (Slot 0)) = data (deref (cache example_read) (Slot 0)) ∧
    valid (deref (cache w3) (Slot 0)) = true ∧
    lock (deref (cache w3) (Slot 0)) = Some 8.
Proof.
  assert (H1 : ring 2 (cache example_boot) [1; 0]%nat).
  { split; [reflexivity|]. split; [apply perm_swap|]. walks_now. }
  assert (H2 : (2 < 3)%nat) by lia.
  assert (H3 : bread 3 7 1 5 example_boot = Ret (Slot 0) example_read)
    by (vm_compute; reflexivity).
  split; [exact H1|]. split; [exact H2|]. split; [exact H3|].
  exact (reread_hits_cache 2 [1; 0]%nat 3 7 8 1 5 example_boot (Slot 0)
           example_read H1 H2 H3).
Defined.

(** X4. Calls that cancel.  [bpin] followed by [bunpin] of the same buffer,
    or [bunpin] followed by [bpin], gives back the very world of the first
    call.  On a well-formed list, when [bget] returns a buffer that was
    already counted, the caller's [brelse] gives back the very world in
    which [bget] was called: counts, locks and recency order are those of
    before. *)
Theorem cancelling_calls :
  (∀ b w, (bpin b ;; bunpin b) w = Ret tt w) ∧
  (∀ b w, (bunpin b ;; bpin b) w = Ret tt w) ∧
  (∀ N l fuel p d n w b w1,
     ring N (cache w) l → (N < fuel)%nat →
     bget fuel p d n w = Ret b w1 →
     refcnt (deref (cache w) b) ≠ 0 →
     brelse p b w1 = Ret tt w).
Proof.
  split; [|split].
  - intros b w. unfold bind, bpin, bunpin, update. f_equal.
    apply with_cache_id_twice_pin.
  - intros b w. unfold bind, bpin, bunpin, update. f_equal.
    apply with_cache_id_twice_unpin.
  - intros N l fuel p d n w b w1 Hr Hf Hb Hcnt.
    destruct (bget_Ret _ _ _ _ _ _ _ _ _ Hr Hf Hb)
      as (i & -> & Hi & Hdisk & Hio & Hfree & [(Hfind & Hc)|(Hfind & Hu & Hc)]).
    2: { apply find_reverse_split in Hu as (? & ? & _ & Hu & _).
         apply unused_true in Hu. done. }
    assert (Hin : in_range (cache w) (Slot i)) by by eapply ring_in_range.
    assert (Hin1 : in_range (cache w1) (Slot i)).
    { rewrite Hc. unfold hit. by rewrite !in_range_assign. }
    assert (Hheld : lock (deref (cache w1) (Slot i)) = Some p).
    { rewrite Hc. by rewrite deref_assign_eq by (unfold hit; by rewrite in_range_assign). }
    assert (Hcnt1 : refcnt (deref (cache w1) (Slot i)) = refcnt (deref (cache w) (Slot i)) + 1).
    { rewrite Hc, (field_assign refcnt) by done. by rewrite deref_hit_eq. }
    rewrite brelse_cases, bool_decide_true by done. f_equal.
    destruct w as [c dsk tr], w1 as [c1 dsk1 tr1]. simpl in *. subst dsk1 tr1.
    unfold with_cache; simpl. f_equal.
    rewrite released_stay by (done || lia). rewrite Hc. unfold uncounted, hit.
    rewrite !assign_assign. apply assign_id.
    destruct (deref c (Slot i)) as [v dv bn lk rc pv nx dt]; simpl in *.
    unfold set_refcnt, set_lock; simpl. subst lk. f_equal. lia.
Qed.

Lemma cancelling_calls_witness :
  ring 2 (cache example_pinned) [1; 0]%nat ∧ (2 < 3)%nat ∧
  bget 3 8 1 5 example_pinned = Ret (Slot 0) (final (bget 3 8 1 5 example_pinned)) ∧
  refcnt (deref (cache example_pinned) (Slot 0)) ≠ 0 ∧
  brelse 8 (Slot 0) (final (bget 3 8 1 5 example_pinned)) = Ret tt example_pinned.
Proof.
  assert (H1 : ring 2 (cache example_pinned) [1; 0]%nat).
  { split; [reflexivity|]. split; [apply perm_swap|]. walks_now. }
  assert (H2 : (2 < 3)%nat) by lia.
  assert (H3 : bget 3 8 1 5 example_pinned =
               Ret (Slot 0) (final (bget 3 8 1 5 example_pinned)))
    by (vm_compute; reflexivity).
  assert (H4 : refcnt (deref (cache example_pinned) (Slot 0)) ≠ 0)
    by (vm_compute; congruence).
  split; [exact H1|]. split; [exact H2|]. split; [exact H3|]. split; [exact H4|].
  exact (proj2 (proj2 cancelling_calls) 2%nat [1; 0]%nat 3%nat 8 1 5 example_pinned
           (Slot 0) (final (bget 3 8 1 5 example_pinned)) H1 H2 H3 H4).
Defined.

(** X5. The buffer released last is recycled last.  On a well-formed list,
    let the holder of buffer [i], whose count is 1, release it, and let
    [bget] then be called for a block that no buffer caches.  If some other
    buffer has count zero, [bget] recycles one of those and not [i]; only
    when every other buffer is counted does it recycle [i], which it then
    returns. *)
Theorem released_recycled_last N l fuel p q i d n w :
  ring N (cache w) l → (N < fuel)%nat → (i < N)%nat →
  lock (deref (cache w) (Slot i)) = Some p →
  refcnt (deref (cache w) (Slot i)) = 1 →
  (∀ j, (j < N)%nat → ident (cache w) j ≠ (d, n)) →
  ∃ w', brelse p (Slot i) w = Ret tt w' ∧
    ((∃ j, (j < N)%nat ∧ j ≠ i ∧ refcnt (deref (cache w) (Slot j)) = 0) →
     ∃ k, k ≠ i ∧ (k < N)%nat ∧ refcnt (deref (cache w) (Slot k)) = 0 ∧
          bget fuel q d n w' =
          locked_return q (Slot k) (with_cache (rebind d n (Slot k)) w')) ∧
    ((∀ j, (j < N)%nat → j ≠ i → refcnt (deref (cache w) (Slot j)) ≠ 0) →
     bget fuel q d n w' =
     Ret (Slot i) (with_cache (assign (Slot i) (set_lock (Some q)))
                     (with_cache (rebind d n (Slot i)) w'))).
Proof.
  intros Hr Hf Hi Hheld Hone Hid.
  assert (Hin : in_range (cache w) (Slot i)) by by eapply held_in_range.
  rewrite brelse_cases, bool_decide_true by done.
  exists (with_cache (released (Slot i)) w). split; [done|].
  pose proof (ring_NoDup _ _ _ Hr) as Hnd.
  pose proof Hi as Hmem. apply (ring_elem _ _ _ _ Hr) in Hmem.
  apply list_elem_of_split in Hmem as (l1 & l2 & Hl). subst l.
  assert (Hr' : ring N (released (Slot i) (cache w)) (i :: l1 ++ l2)).
  { rewrite released_move by (done || lia).
    by apply move_front_ring, ring_uncounted. }
  assert (Hrange : ∀ j, j ∈ l1 ++ l2 → (j < N)%nat ∧ j ≠ i).
  { intros j Hj. split.
    - apply (ring_elem _ _ _ _ Hr). apply elem_of_app in Hj as [?|?];
        apply elem_of_app; [by left|right; by apply list_elem_of_further].
    - intros ->. rewrite <- Permutation_middle in Hnd.
      apply NoDup_cons in Hnd as [Hnd _]. done. }
  assert (Hcnt : ∀ j, j ≠ i →
            refcnt (deref (released (Slot i) (cache w)) (Slot j)) =
            refcnt (deref (cache w) (Slot j))).
  { intros j Hj. rewrite field_released by done.
    rewrite deref_uncounted_ne; [done|congruence]. }
  assert (Hcnti : refcnt (deref (released (Slot i) (cache w)) (Slot i)) = 0).
  { rewrite field_released by done. rewrite deref_uncounted_eq by done.
    simpl. lia. }
  assert (Hlocki : lock (deref (released (Slot i) (cache w)) (Slot i)) = None).
  { rewrite field_released by done. by rewrite deref_uncounted_eq. }
  assert (Hget : ∀ u, bget fuel q d n (with_cache (released (Slot i)) w) =
            match find (unused (released (Slot i) (cache w)))
                    (reverse (l1 ++ l2) ++ [i]) with
            | Some k => locked_return q (Slot k)
                          (with_cache (rebind d n (Slot k))
                             (with_cache (released (Slot i)) w))
            | None => u
            end).
  { intros u.
    rewrite (bget_ring N (released (Slot i) (cache w)) (i :: l1 ++ l2) fuel q d n
               (with_cache (released (Slot i)) w) eq_refl Hr' Hf).
    rewrite (proj2 (find_None_all _ (i :: l1 ++ l2))).
    2: { intros j Hj. apply cached_false. rewrite ident_released.
         apply Hid, (ring_elem _ _ _ _ Hr'). done. }
    rewrite reverse_cons. rewrite find_app.
    destruct (find _ (reverse (l1 ++ l2))); [done|].
    simpl. by rewrite (proj2 (unused_true _ i) Hcnti). }
  split.
  - intros (j & Hj & Hji & Hz).
    assert (Hjm : j ∈ reverse (l1 ++ l2)).
    { rewrite elem_of_reverse. apply (ring_elem _ _ _ _ Hr) in Hj.
      apply elem_of_app in Hj as [?|[->|?]%elem_of_cons]; [|done|];
        apply elem_of_app; auto. }
    destruct (find (unused (released (Slot i) (cache w))) (reverse (l1 ++ l2)))
      as [k|] eqn:E.
    + pose proof E as Hk. apply find_Some_split in Hk as (a & b & Hab & Hk & _).
      assert (Hkm : k ∈ l1 ++ l2).
      { rewrite <- elem_of_reverse, Hab. apply elem_of_app. right.
        apply list_elem_of_here. }
      destruct (Hrange k Hkm) as [HkN Hki].
      exists k. split; [done|]. split; [done|]. split.
      * rewrite <- Hcnt by done. by apply unused_true.
      * rewrite (Hget (Panic "" w)), find_app, E. done.
    + exfalso. rewrite find_None_all in E. specialize (E j Hjm).
      apply unused_false in E. rewrite Hcnt in E by done. done.
  - intros Hall.
    rewrite (Hget (Panic "" w)), find_app.
    rewrite (proj2 (find_None_all _ (reverse (l1 ++ l2)))).
    2: { intros j Hj. rewrite elem_of_reverse in Hj.
         destruct (Hrange j Hj) as [HjN Hji].
         apply unused_false. rewrite Hcnt by done. by apply Hall. }
    simpl. rewrite (proj2 (unused_true _ i) Hcnti).
    rewrite locked_return_cases, !cache_with_cache.
    unfold rebind at 1. rewrite !(field_assign lock) by done.
    by rewrite Hlocki.
Qed.

Lemma released_recycled_last_witness :
  ring 2 (cache example_held) [1; 0]%nat ∧ (2 < 3)%nat ∧ (0 < 2)%nat ∧
  lock (deref (cache example_held) (Slot 0)) = Some 7 ∧
  refcnt (deref (cache example_held) (Slot 0)) = 1 ∧
  (∀ j, (j < 2)%nat → ident (cache example_held) j ≠ (2, 9)) ∧
  ∃ w', brelse 7 (Slot 0) example_held = Ret tt w' ∧
    ((∃ j, (j < 2)%nat ∧ j ≠ 0%nat ∧ refcnt (deref (cache example_held) (Slot j)) = 0) →
     ∃ k, k ≠ 0%nat ∧ (k < 2)%nat ∧ refcnt (deref (cache example_held) (Slot k)) = 0 ∧
          bget 3 8 2 9 w' =
          locked_return 8 (Slot k) (with_cache (rebind 2 9 (Slot k)) w')) ∧
    ((∀ j, (j < 2)%nat → j ≠ 0%nat → refcnt (deref (cache example_held) (Slot j)) ≠ 0) →
     bget 3 8 2 9 w' =
     Ret (Slot 0) (with_cache (assign (Slot 0) (set_lock (Some 8)))
                     (with_cache (rebind 2 9 (Slot 0)) w'))).
Proof.
  assert (H1 : ring 2 (cache example_held) [1; 0]%nat).
  { split; [reflexivity|]. split; [apply perm_swap|]. walks_now. }
  assert (H2 : (2 < 3)%nat) by lia.
  assert (H3 : (0 < 2)%nat) by lia.
  assert (H4 : lock (deref (cache example_held) (Slot 0)) = Some 7) by reflexivity.
  assert (H5 : refcnt (deref (cache example_held) (Slot 0)) = 1) by reflexivity.
  assert (H6 : ∀ j, (j < 2)%nat → ident (cache example_held) j ≠ (2, 9)).
  { intros j Hj. slot_cases j Hj. }
  do 6 (split; [assumption|]).
  exact (released_recycled_last 2 [1; 0]%nat 3 7 8 0 2 9 example_held
           H1 H2 H3 H4 H5 H6).
Defined.

(** X6. What a process may do with the buffer it got from [bread]: on a
    well-formed list, after [bread] returned [b] to process [p], [bwrite]
    by [p] returns, leaves the cache as it is and makes exactly one
    transfer, the write of [b]'s payload to the block that was read, and
    [brelse] by [p] then returns without any transfer; [bwrite] and
    [brelse] by any other process panic and change nothing.
    (The transfer itself is [virtio_disk_rw], modelled from the spec.) *)
Theorem read_write_release N l fuel p d n w b w1 :
  ring N (cache w) l → (N < fuel)%nat →
  bread fuel p d n w = Ret b w1 →
  ∃ w2 w3,
    bwrite p b w1 = Ret tt w2 ∧
    cache w2 = cache w1 ∧
    io w2 = io w1 ++ [DiskWrite d n (data (deref (cache w1) b))] ∧
    disk w2 d n = data (deref (cache w1) b) ∧
    brelse p b w2 = Ret tt w3 ∧
    io w3 = io w2 ∧ disk w3 = disk w2 ∧
    (∀ q, q ≠ p → bwrite q b w1 = Panic "bwrite" w1 ∧
                  brelse q b w1 = Panic "brelse" w1).
Proof.
  intros Hr Hf Hb.
  destruct (bread_Ret _ _ _ _ _ _ _ _ _ Hr Hf Hb)
    as (i & -> & Hi & Hr1 & Hfirst & Hheld & Hv).
  assert (Hid : ident (cache w1) i = (d, n)).
  { apply cached_true. by apply find_Some_split in Hfirst as (? & ? & _ & ? & _). }
  injection Hid as Hd Hn.
  rewrite bwrite_cases, bool_decide_true by done.
  unfold virtio_disk_rw. rewrite Hd, Hn.
  eexists. eexists. split; [done|]. cbn [cache io disk].
  split; [done|]. split; [done|].
  split; [by rewrite !Z.eqb_refl|].
  rewrite brelse_cases. cbn [cache]. rewrite bool_decide_true by done.
  split; [done|]. split; [done|]. split; [done|].
  intros q Hq. rewrite bwrite_cases, brelse_cases.
  by rewrite !bool_decide_false by congruence.
Qed.

Lemma read_write_release_witness :
  ring 2 (cache example_boot) [1; 0]%nat ∧ (2 < 3)%nat ∧
  bread 3 7 1 5 example_boot = Ret (Slot 0) example_read ∧
  ∃ w2 w3,
    bwrite 7 (Slot 0) example_read = Ret tt w2 ∧
    cache w2 = cache example_read ∧
    io w2 = io example_read ++
            [DiskWrite 1 5 (data (deref (cache example_read) (Slot 0)))] ∧
    disk w2 1 5 = data (deref (cache example_read) (Slot 0)) ∧
    brelse 7 (Slot 0) w2 = Ret tt w3 ∧
    io w3 = io w2 ∧ disk w3 = disk w2 ∧
    (∀ q, q ≠ 7 → bwrite q (Slot 0) example_read = Panic "bwrite" example_read ∧
                  brelse q (Slot 0) example_read = Panic "brelse" example_read).
Proof.
  assert (H1 : ring 2 (cache example_boot) [1; 0]%nat).
  { split; [reflexivity|]. split; [apply perm_swap|]. walks_now. }
  assert (H2 : (2 < 3)%nat) by lia.
  assert (H3 : bread 3 7 1 5 example_boot = Ret (Slot 0) example_read)
    by (vm_compute; reflexivity).
  do 3 (split; [assumption|]).
  exact (read_write_release 2 [1; 0]%nat 3 7 1 5 example_boot (Slot 0)
           example_read H1 H2 H3).
Defined.

(** X7. [binit] does not depend on what the memory held: run on any cache
    of [NBUF] buffers, whatever its links, it leaves a well-formed list
    with the last buffer of the array at the front and the first at the
    tail, every sleep-lock free, and [dev], [blockno], [valid], [refcnt]
    and [data] of every buffer untouched. *)
Theorem binit_any_memory N c :
  length (bc_buf c) = N →
  ring N (binit N c) (reverse (seq 0 N)) ∧
  (∀ i, (i < N)%nat → lock (deref (binit N c) (Slot i)) = None) ∧
  (∀ q, same_content c (binit N c) q ∧
        refcnt (deref (binit N c) q) = refcnt (deref c q)).
Proof.
  intros Hlen. split; [by apply binit_ring|].
  split; [intros i Hi; by apply binit_locks_free|].
  intros q. unfold same_content. by rewrite !binit_field.
Qed.

Lemma binit_any_memory_witness :
  length (bc_buf (cache example_held)) = 2%nat ∧
  ring 2 (binit 2 (cache example_held)) (reverse (seq 0 2)) ∧
  (∀ i, (i < 2)%nat → lock (deref (binit 2 (cache example_held)) (Slot i)) = None) ∧
  (∀ q, same_content (cache example_held) (binit 2 (cache example_held)) q ∧
        refcnt (deref (binit 2 (cache example_held)) q) =
        refcnt (deref (cache example_held) q)).
Proof.
  assert (H1 : length (bc_buf (cache example_held)) = 2%nat) by reflexivity.
  split; [exact H1|].
  exact (binit_any_memory 2 (cache example_held) H1).
Defined.

(** X8. [bread] panics exactly when the cache is exhausted: on a
    well-formed list it panics if and only if no buffer caches the
    requested block and no buffer has count zero.  (A buffer with a
    negative count is as busy as one with a positive count.) *)
Theorem bread_panics_iff N l fuel p d n w :
  ring N (cache w) l → (N < fuel)%nat →
  (∃ m w', bread fuel p d n w = Panic m w') ↔
  (∀ j, (j < N)%nat → ident (cache w) j ≠ (d, n)) ∧
  (∀ j, (j < N)%nat → refcnt (deref (cache w) (Slot j)) ≠ 0).
Proof.
  intros Hr Hf. rewrite bread_cases, (bget_ring N (cache w) l) by done.
  destruct (find (cached d n (cache w)) l) as [i|] eqn:E1.
  - split.
    + intros (m & w' & H). rewrite locked_return_cases in H.
      by destruct (lock _).
    + intros [Hid _]. exfalso.
      apply find_Some_split in E1 as (l1 & l2 & -> & Hi & _).
      apply cached_true in Hi. apply (Hid i); [|done].
      apply (ring_elem _ _ _ _ Hr), elem_of_app. right. apply list_elem_of_here.
  - destruct (find (unused (cache w)) (reverse l)) as [i|] eqn:E2.
    + split.
      * intros (m & w' & H). rewrite locked_return_cases in H.
        by destruct (lock _).
      * intros [_ Hcnt]. exfalso.
        apply find_reverse_split in E2 as (l1 & l2 & -> & Hi & _).
        apply unused_true in Hi. apply (Hcnt i); [|done].
        apply (ring_elem _ _ _ _ Hr), elem_of_app. right. apply list_elem_of_here.
    + split; [intros _|by eauto]. rewrite find_None_all in E1, E2. split.
      * intros j Hj. apply cached_false, E1. by apply (ring_elem _ _ _ _ Hr).
      * intros j Hj. apply unused_false, E2.
        rewrite elem_of_reverse. by apply (ring_elem _ _ _ _ Hr).
Qed.

Lemma bread_panics_iff_witness :
  ring 2 (cache example_boot) [1; 0]%nat ∧ (2 < 3)%nat ∧
  ((∃ m w', bread 3 7 1 5 example_boot = Panic m w') ↔
   (∀ j, (j < 2)%nat → ident (cache example_boot) j ≠ (1, 5)) ∧
   (∀ j, (j < 2)%nat → refcnt (deref (cache example_boot) (Slot j)) ≠ 0)).
Proof.
  assert (H1 : ring 2 (cache example_boot) [1; 0]%nat).
  { split; [reflexivity|]. split; [apply perm_swap|]. walks_now. }
  assert (H2 : (2 < 3)%nat) by lia.
  split; [exact H1|]. split; [exact H2|].
  exact (bread_panics_iff 2 [1; 0]%nat 3 7 1 5 example_boot H1 H2).
Defined.

(** X9. Use after release is caught: once the holder of a buffer has
    released it with [brelse], a second [brelse] or a [bwrite] of that
    buffer by the same process panics and changes nothing. *)
Theorem use_after_release_panics p b w :
  lock (deref (cache w) b) = Some p →
  ∃ w', brelse p b w = Ret tt w' ∧
        brelse p b w' = Panic "brelse" w' ∧
        bwrite p b w' = Panic "bwrite" w'.
Proof.
  intros Hheld. assert (Hin : in_range (cache w) b) by by eapply held_in_range.
  rewrite brelse_cases, bool_decide_true by done.
  eexists. split; [done|].
  assert (Hfree : lock (deref (cache (with_cache (released b) w)) b) = None).
  { rewrite cache_with_cache, field_released by done.
    by rewrite deref_uncounted_eq. }
  rewrite brelse_cases, bwrite_cases.
  rewrite !bool_decide_false; [done|congruence].
Qed.

Lemma use_after_release_panics_witness :
  lock (deref (cache example_held) (Slot 0)) = Some 7 ∧
  ∃ w', brelse 7 (Slot 0) example_held = Ret tt w' ∧
        brelse 7 (Slot 0) w' = Panic "brelse" w' ∧
        bwrite 7 (Slot 0) w' = Panic "bwrite" w'.
Proof.
  assert (H1 : lock (deref (cache example_held) (Slot 0)) = Some 7) by reflexivity.
  split; [exact H1|].
  exact (use_after_release_panics 7 (Slot 0) example_held H1).
Defined.

(** X10. Which calls reach the disk.  On a well-formed list, however the
    call ends: [bget], [brelse], [bpin] and [bunpin] make no transfer and
    leave the disk alone; [bread] leaves the disk alone and makes at most
    one transfer, a read of the requested block; [bwrite] makes either none
    or one write of the buffer's payload to the buffer's block, and changes
    no other block.  (The disk is that of [virtio_disk_rw], modelled from
    the spec.) *)
Theorem disk_transfers N l fuel o w :
  ring N (cache w) l → (N < fuel)%nat →
  match o with
  | Read p d n =>
      disk (final (exec fuel o w)) = disk w ∧
      (io (final (exec fuel o w)) = io w ∨
       io (final (exec fuel o w)) = io w ++ [DiskRead d n])
  | Write p b =>
      (io (final (exec fuel o w)) = io w ∧ disk (final (exec fuel o w)) = disk w) ∨
      (io (final (exec fuel o w)) =
         io w ++ [DiskWrite (dev (deref (cache w) b)) (blockno (deref (cache w) b))
                    (data (deref (cache w) b))] ∧
       disk (final (exec fuel o w)) (dev (deref (cache w) b))
         (blockno (deref (cache w) b)) = data (deref (cache w) b) ∧
       ∀ d' n', (d', n') ≠ (dev (deref (cache w) b), blockno (deref (cache w) b)) →
                disk (final (exec fuel o w)) d' n' = disk w d' n')
  | _ => disk (final (exec fuel o w)) = disk w ∧ io (final (exec fuel o w)) = io w
  end.
Proof.
  intros Hr Hf. destruct o as [p d n|p d n|p b|p b|b|b]; cbn [exec].
  - rewrite final_bind_ret. by destruct (bget_frame fuel p d n w) as (? & ? & _).
  - rewrite final_bind_ret, bread_cases.
    destruct (bget_frame fuel p d n w) as (Hd & Hio & _).
    destruct (bget fuel p d n w) as [b w1| | |] eqn:E; simpl in *; auto.
    destruct (bget_Ret_ident _ _ _ _ _ _ _ _ _ Hr Hf E) as (i & -> & _ & Hid & _).
    destruct (valid (deref (cache w1) (Slot i))); [auto|].
    unfold filled; simpl. split; [done|]. right.
    injection Hid as -> ->. by rewrite Hio.
  - rewrite bwrite_cases. destruct (bool_decide _); [right|left; done].
    unfold virtio_disk_rw; simpl. split; [done|]. split.
    + by rewrite !Z.eqb_refl.
    + intros d' n' Hne.
      destruct (Z.eqb_spec d' (dev (deref (cache w) b))) as [->|]; [|done].
      destruct (Z.eqb_spec n' (blockno (deref (cache w) b))) as [->|]; done.
  - rewrite brelse_cases. by destruct (bool_decide _).
  - done.
  - done.
Qed.

Lemma disk_transfers_witness :
  ring 2 (cache example_boot) [1; 0]%nat ∧ (2 < 3)%nat ∧
  disk (final (exec 3 (Read 7 1 5) example_boot)) = disk example_boot ∧
  (io (final (exec 3 (Read 7 1 5) example_boot)) = io example_boot ∨
   io (final (exec 3 (Read 7 1 5) example_boot)) =
   io example_boot ++ [DiskRead 1 5]).
Proof.
  assert (H1 : ring 2 (cache example_boot) [1; 0]%nat).
  { split; [reflexivity|]. split; [apply perm_swap|]. walks_now. }
  assert (H2 : (2 < 3)%nat) by lia.
  split; [exact H1|]. split; [exact H2|].
  exact (disk_transfers 2 [1; 0]%nat 3 (Read 7 1 5) example_boot H1 H2).
Defined.

(** X11. The cache holds [NBUF] blocks and no more.  After [binit], a
    process that reads any distinct blocks other than block 0 of device 0,
    at most [NBUF] of them, and keeps every buffer, gets them all: the
    reads return, block number [j] of the list sits in buffer [j], valid,
    counted once and locked by the reader, and the disk has been read once
    per block, in the order of the list.  When [NBUF] blocks are so held,
    [bread] of any further block, by any process, panics with
    ["bget:no buffers"] and changes nothing. *)
Theorem cache_holds_NBUF_blocks N p fuel dsk bs :
  NoDup bs → (0, 0) ∉ bs → (length bs ≤ N)%nat → (N < fuel)%nat →
  ∃ w', bread_each fuel p bs (boot N dsk) = Ret tt w' ∧
        io w' = (fun x => DiskRead x.1 x.2) <$> bs ∧
        (∀ j x, bs !! j = Some x →
                ident (cache w') j = x ∧
                refcnt (deref (cache w') (Slot j)) = 1 ∧
                lock (deref (cache w') (Slot j)) = Some p ∧
                valid (deref (cache w') (Slot j)) = true) ∧
        (length bs = N →
         ∀ q d n, (d, n) ∉ bs →
                  bread fuel q d n w' = Panic "bget:no buffers" w').
Proof.
  intros Hnd Hz Hlen Hf.
  destruct (bread_each_holding N p fuel bs [] (boot N dsk))
    as (w' & Hb & Hio & _ & Hr & Hpre & _); auto using holding_boot.
  exists w'. split; [done|]. split; [done|]. split; [done|].
  intros Hfull q d n Hnew. simpl in Hr, Hpre.
  rewrite bread_cases, (bget_ring N (cache w') _ fuel q d n w' eq_refl Hr Hf).
  rewrite (proj2 (find_None_all _ _)).
  - rewrite (proj2 (find_None_all _ _)); [done|].
    intros j Hj. rewrite !elem_of_reverse, elem_of_seq in Hj.
    assert (Hjl : (j < length bs)%nat) by lia.
    apply lookup_lt_is_Some_2 in Hjl as [x Hx].
    destruct (Hpre j x Hx) as (_ & Hc & _). apply unused_false. lia.
  - intros j Hj. rewrite elem_of_reverse, elem_of_seq in Hj.
    assert (Hjl : (j < length bs)%nat) by lia.
    apply lookup_lt_is_Some_2 in Hjl as [x Hx].
    destruct (Hpre j x Hx) as (Hid & _). apply cached_false. rewrite Hid.
    intros ->. apply Hnew. by eapply list_elem_of_lookup_2.
Qed.

Lemma cache_holds_NBUF_blocks_witness :
  NoDup [(1, 5); (1, 6)] ∧ ((0, 0) ∉ [(1, 5); (1, 6)]) ∧
  (length [(1, 5); (1, 6)] ≤ 2)%nat ∧ (2 < 3)%nat ∧
  ∃ w', bread_each 3 7 [(1, 5); (1, 6)] (boot 2 blank) = Ret tt w' ∧
        io w' = (fun x => DiskRead x.1 x.2) <$> [(1, 5); (1, 6)] ∧
        (∀ j x, [(1, 5); (1, 6)] !! j = Some x →
                ident (cache w') j = x ∧
                refcnt (deref (cache w') (Slot j)) = 1 ∧
                lock (deref (cache w') (Slot j)) = Some 7 ∧
                valid (deref (cache w') (Slot j)) = true) ∧
        (length [(1, 5); (1, 6)] = 2%nat →
         ∀ q d n, (d, n) ∉ [(1, 5); (1, 6)] →
                  bread 3 q d n w' = Panic "bget:no buffers" w').
Proof.
  assert (H1 : NoDup [(1, 5); (1, 6)]).
  { apply NoDup_cons. split; [|apply NoDup_singleton].
    rewrite list_elem_of_singleton. congruence. }
  assert (H2 : (0, 0) ∉ [(1, 5); (1, 6)]).
  { rewrite !not_elem_of_cons. repeat split; try congruence. apply not_elem_of_nil. }
  assert (H3 : (length [(1, 5); (1, 6)] ≤ 2)%nat) by (simpl; lia).
  assert (H4 : (2 < 3)%nat) by lia.
  do 4 (split; [assumption|]).
  exact (cache_holds_NBUF_blocks 2 7 3 blank [(1, 5); (1, 6)] H1 H2 H3 H4).
Defined.
